(** * The version-gated sync protocol of the Automerge demo

    A shallow embedding of [demos/automerge-demo/src/index.ts]: the ordering
    [Server] (an append-only, versioned log with an idempotency table) and the
    sync [Client] (local and shadow document, touched-path tracking, the
    pull / reconcile / commit / retry loop, undo).

    Conventions of the embedding.
    - A JavaScript [number] holding a version is a [Z]; the program only
      compares versions and adds one, which is exact below 2^53.
    - A method of a class is a function from the object's state to the new
      state and the method's completion ([Ok v] for [return v], [Throw e] for
      a thrown exception).
    - [Set<string>] used only through [has]/[add] is a [gset string]; the
      client's [touchedPaths], which is also iterated, is a duplicate-free
      list in insertion order.
    - The Automerge library is an external collaborator: it is the record
      [Engine] below.

    The relay of [demos/yjs-demo/src/index.ts] (a numbered log without
    versions, clients that follow it with a cursor) is embedded in module
    [Yjs], with Yjs itself as the record [Yjs.YEngine]. *)

From stdpp Require Import base decidable option list strings pretty gmap sets.
From Stdlib Require Import ZArith Lia Ascii.

Set Warnings "-register-all".

Local Open Scope Z_scope.

(** ** Completions *)

Inductive Exn : Type :=
  | STALE_VERSION (currentVersion : Z)   (* throw { code: 'STALE_VERSION', currentVersion } *)
  | TypeError                            (* a property read off undefined, or assigned on a primitive *)
  | RangeError                           (* the RangeError of a draft that is assigned undefined *)
  | EngineError.                         (* any other exception raised inside Automerge *)

Inductive Completion (A : Type) : Type :=
  | Ok (a : A)
  | Throw (e : Exn).
Arguments Ok {A} a.
Arguments Throw {A} e.

(** ** Server *)

Module Server.
Section WithChange.

(** [Uint8Array]: the server never looks inside a change. *)
Context {Change : Type}.

(** [type Op] *)
Record Op : Type := mkOp {
  op_version : Z;
  op_opId : string;
  op_actorId : string;
  op_changes : list Change;
  op_touchedPaths : list string
}.

(** The argument object of [commit]. *)
Record CommitReq : Type := mkReq {
  expectedVersion : Z;
  opId : string;
  actorId : string;
  changes : list Change;
  touchedPaths : list string
}.

(** [class Server] *)
Record t : Type := mkServer {
  version : Z;
  ops : list Op;
  committedOpIds : gset string
}.

(** [new Server()] *)
Definition init : t :=
  {| version := 0; ops := []; committedOpIds := ∅ |}.

(** [fetchSince(v)]: [this.ops.filter(op => op.version > v)] *)
Definition fetchSince (s : t) (v : Z) : t * list Op :=
  (s, filter (λ op, op_version op > v) (ops s)).

(** [this.ops.find(o => o.opId === req.opId)] *)
Definition findOp (k : string) (l : list Op) : option Op :=
  List.find (λ o, bool_decide (op_opId o = k)) l.

(** [commit(req)] *)
Definition commit (s : t) (req : CommitReq) : t * Completion Z :=
  if decide (opId req ∈ committedOpIds s) then
    match findOp (opId req) (ops s) with
    | Some op => (s, Ok (op_version op))
    | None => (s, Throw TypeError)            (* [op!.version] on undefined *)
    end
  else if decide (expectedVersion req ≠ version s) then
    (s, Throw (STALE_VERSION (version s)))
  else
    let v := version s + 1 in
    let op := {| op_version := v;
                 op_opId := opId req;
                 op_actorId := actorId req;
                 op_changes := changes req;
                 op_touchedPaths := touchedPaths req |} in
    ({| version := v;
        ops := ops s ++ [op];
        committedOpIds := {[opId req]} ∪ committedOpIds s |},
     Ok v).

(** A call of one of the two methods a client can make. *)
Inductive Call : Type :=
  | CallFetchSince (v : Z)
  | CallCommit (req : CommitReq).

Definition call (s : t) (c : Call) : t :=
  match c with
  | CallFetchSince v => fst (fetchSince s v)
  | CallCommit req => fst (commit s req)
  end.

Definition runCalls (s : t) (cs : list Call) : t := fold_left call cs s.

(** The states a server object can be in: [new Server()] followed by any
    calls of its methods. *)
Inductive reachable : t → Prop :=
  | reachable_init : reachable init
  | reachable_call s c : reachable s → reachable (call s c).

(** [steps s s']: [s'] is [s] after some further calls. *)
Inductive steps (s : t) : t → Prop :=
  | steps_refl : steps s s
  | steps_call s' c : steps s s' → steps s (call s' c).

(** A commit appended when the log is longer afterwards. *)
Definition appended (s s' : t) : bool :=
  bool_decide (length (ops s') ≠ length (ops s)).

(** The versions returned, in order, by the commits of a call sequence that
    appended a log entry. *)
Fixpoint appendedVersions (s : t) (cs : list Call) : list Z :=
  match cs with
  | [] => []
  | CallFetchSince v :: cs' => appendedVersions (fst (fetchSince s v)) cs'
  | CallCommit req :: cs' =>
      let '(s', r) := commit s req in
      match r with
      | Ok v => if appended s s' then v :: appendedVersions s' cs'
                else appendedVersions s' cs'
      | Throw _ => appendedVersions s' cs'
      end
  end.

(** The server invariant of the data model. *)
Record Inv (s : t) : Prop := mkInv {
  inv_version : version s = Z.of_nat (length (ops s));
  inv_log : ∀ (i : nat) op, ops s !! i = Some op → op_version op = Z.of_nat i + 1;
  inv_keys : ∀ k, k ∈ committedOpIds s ↔ ∃ op, op ∈ ops s ∧ op_opId op = k
}.

(** [assigned s k v]: key [k] is seen and its lookup gives version [v]. *)
Definition assigned (s : t) (k : string) (v : Z) : Prop :=
  k ∈ committedOpIds s ∧
  ∃ op, findOp k (ops s) = Some op ∧ op_version op = v.

End WithChange.
Arguments Op : clear implicits.
Arguments CommitReq : clear implicits.
Arguments t : clear implicits.
Arguments Call : clear implicits.
End Server.

(** ** Document values and the path helpers *)

(** What a document of [DocType] is made of when read as a plain JavaScript
    value: objects with string keys and string leaves.  [JUndef] is
    [undefined], the result of reading a property that is not there; [JNum]
    is a number, which the program meets as the [length] of a string.  An
    array such as [order] is an object keyed by its indices.  A string is a
    sequence of code units, one per character here. *)
Inductive JVal : Type :=
  | JUndef
  | JStr (s : string)
  | JObj (fields : list (string * JVal))
  | JNum (n : Z).

(** JavaScript truthiness: [undefined], the empty string and [0] are
    falsy. *)
Definition truthy (v : JVal) : bool :=
  match v with
  | JUndef => false
  | JStr s => negb (bool_decide (s = EmptyString))
  | JObj _ => true
  | JNum n => negb (bool_decide (n = 0))
  end.

(** Own-property read on the field list of an object. *)
Fixpoint fieldGet (k : string) (fs : list (string * JVal)) : JVal :=
  match fs with
  | [] => JUndef
  | (k', v) :: fs' => if decide (k' = k) then v else fieldGet k fs'
  end.

(** Own-property write: replaces the value of an existing key, adds a new
    key at the end. *)
Fixpoint fieldSet (k : string) (v : JVal) (fs : list (string * JVal))
  : list (string * JVal) :=
  match fs with
  | [] => [(k, v)]
  | (k', v') :: fs' =>
      if decide (k' = k) then (k, v) :: fs' else (k', v') :: fieldSet k v fs'
  end.

(** [s[k]] for a string [s] and a key other than [length]: the character at
    the index that [k] is the decimal numeral of, [undefined] when [k] is no
    such numeral or the index is not below the length. *)
Fixpoint charAt (i : nat) (s : string) (k : string) : JVal :=
  match s with
  | EmptyString => JUndef
  | String c r =>
      if decide (pretty i = k) then JStr (String c EmptyString)
      else charAt (S i) r k
  end.

(** [o[k]] for [o] other than [undefined].  An object of a document or of a
    draft gives its own properties only; a string gives its length and its
    characters; members a primitive inherits from its prototype (the methods
    of strings and numbers) are left out. *)
Definition getProp (o : JVal) (k : string) : JVal :=
  match o with
  | JObj fs => fieldGet k fs
  | JStr s =>
      if decide (k = "length") then JNum (Z.of_nat (String.length s))
      else charAt 0 s k
  | _ => JUndef
  end.

(** [path.split('.')]: never empty, [''.split('.')] is [['']]. *)
Fixpoint split_dot (s : string) : list string :=
  match s with
  | EmptyString => [EmptyString]
  | String c r =>
      if decide (c = "."%char) then EmptyString :: split_dot r
      else match split_dot r with
           | [] => [String c EmptyString]
           | h :: t => String c h :: t
           end
  end.

(** [parts.join('.')] *)
Definition join_dot (parts : list string) : string :=
  String.concat "."%string parts.

(** [parts.reduce((o, k) => o && o[k], obj)] *)
Definition getParts (obj : JVal) (parts : list string) : JVal :=
  fold_left (λ o k, if truthy o then getProp o k else o) parts obj.
Arguments getParts : simpl never.

(** [getByPath(obj, path)] *)
Definition getByPath (obj : JVal) (path : string) : JVal :=
  getParts obj (split_dot path).

(** [parts.reduce((o, k) => o[k], obj)]: reading a property of [undefined]
    throws. *)
Fixpoint navigate (o : JVal) (parts : list string) : Completion JVal :=
  match parts with
  | [] => Ok o
  | k :: rest =>
      match o with
      | JUndef => Throw TypeError
      | _ => navigate (getProp o k) rest
      end
  end.

(** The tree after [target[last] = val], where [target] is the object that
    [parts] leads to through objects.  The source mutates [target] through
    its reference; on a tree of values that is a rebuild of the spine above
    it. *)
Fixpoint writeAt (o : JVal) (parts : list string) (last : string) (val : JVal)
  : JVal :=
  match parts with
  | [] =>
      match o with
      | JObj fs => JObj (fieldSet last val fs)
      | _ => o
      end
  | k :: rest =>
      match o with
      | JObj fs =>
          match fieldGet k fs with
          | JObj _ =>
              JObj (fieldSet k (writeAt (fieldGet k fs) rest last val) fs)
          | _ => o
          end
      | _ => o
      end
  end.

(** The values a draft takes: no [undefined], at the top or inside. *)
Fixpoint assignable (v : JVal) : bool :=
  match v with
  | JUndef => false
  | JStr _ => true
  | JNum _ => true
  | JObj fs =>
      (fix all (fs : list (string * JVal)) : bool :=
         match fs with
         | [] => true
         | (_, x) :: rest => assignable x && all rest
         end) fs
  end.

(** [target[last] = val] on an object of an Automerge draft, which is the
    only kind of object the program calls [setByPath] on: Automerge refuses
    [undefined], as the value or inside it, with a [RangeError], and refuses
    the empty string as a key of a map. *)
Definition assignCheck (last : string) (val : JVal) : option Exn :=
  match val with
  | JUndef => Some RangeError
  | _ =>
      if decide (last = EmptyString) then Some EngineError
      else if assignable val then None
      else Some RangeError
  end.

(** [setByPath(obj, path, val)].  [if (target)] skips the write when the
    parent is falsy; assigning a property of a string or number primitive
    throws in module (strict) code. *)
Definition setParts (obj : JVal) (parts : list string) (val : JVal)
  : Completion JVal :=
  let last := List.last parts EmptyString in
  let parts := removelast parts in
  match navigate obj parts with
  | Throw e => Throw e
  | Ok target =>
      if truthy target then
        match target with
        | JObj _ =>
            match assignCheck last val with
            | Some e => Throw e
            | None => Ok (writeAt obj parts last val)
            end
        | _ => Throw TypeError
        end
      else Ok obj
  end.

Definition setByPath (obj : JVal) (path : string) (val : JVal)
  : Completion JVal :=
  setParts obj (split_dot path) val.

(** Vocabulary for statements about paths.  [parentPresent d p]: the object
    that holds the last key of [p] is there in [d]; [lastKey p]: the key
    [setByPath] assigns; [accepted p v]: the draft takes [v] under that key;
    [nested p q]: the keys of [p] are the first keys of [q]. *)
Definition isObj (v : JVal) : bool :=
  match v with
  | JObj _ => true
  | _ => false
  end.

Definition parentPresent (d : JVal) (p : string) : Prop :=
  isObj (getParts d (removelast (split_dot p))) = true.

Definition lastKey (p : string) : string :=
  List.last (split_dot p) EmptyString.

Definition accepted (p : string) (v : JVal) : Prop :=
  assignCheck (lastKey p) v = None.

Definition nested (p q : string) : Prop :=
  split_dot p `prefix_of` split_dot q.

Definition unrelated (p q : string) : Prop :=
  ¬ nested p q ∧ ¬ nested q p.

(** ** [Set<string>] with insertion order *)

Definition setAdd (x : string) (l : list string) : list string :=
  if decide (x ∈ l) then l else l ++ [x].

Definition setDelete (x : string) (l : list string) : list string :=
  filter (λ y, y ≠ x) l.

(** ** The document engine (Automerge), as the client uses it *)

Record Engine : Type := mkEngine {
  Doc : Type;                              (* A.Doc<DocType> *)
  Change : Type;                           (* one Uint8Array of getChanges *)
  Snapshot : Type;                         (* the Uint8Array of save *)
  Heads : Type;
  A_init : string → Doc;                   (* A.init({ actorId }) *)
  A_view : Doc → JVal;                     (* the document read as an object *)
  A_save : Doc → Snapshot;
  A_load : Snapshot → Doc;
  A_getHeads : Doc → Heads;
  (* A.change(doc, message, cb) once cb has left the draft in the given
     state without throwing; the draft is read and written as the object
     tree of the document *)
  A_change : Doc → string → JVal → Doc;
  A_diff : Doc → Heads → Heads → list (list string);   (* the patches' paths *)
  A_clone : Doc → Doc;
  A_applyChanges : Doc → list Change → Completion Doc;
  A_getChanges : Doc → Doc → Completion (list Change)
}.

(** ** Client *)

Module Client.
Section WithEngine.

Context {E : Engine}.

Abbreviation Op := (Server.Op (Change E)).
Abbreviation CommitReq := (Server.CommitReq (Change E)).
Abbreviation ServerState := (Server.t (Change E)).
Abbreviation Call := (Server.Call (Change E)).

(** [class Client].  The [server] field is a reference to the one shared
    server object; its state is threaded next to the client's. *)
Record t : Type := mkClient {
  actorId : string;
  localDoc : Doc E;
  shadowDoc : Doc E;
  serverVersion : Z;
  touchedPaths : list string;
  isOnline : bool;
  strictMode : bool;
  undoStack : list (Snapshot E)
}.

(** [new Client(id, server)] *)
Definition init (id : string) : t :=
  {| actorId := id;
     localDoc := A_init E id;
     shadowDoc := A_init E id;
     serverVersion := 0;
     touchedPaths := [];
     isOnline := true;
     strictMode := false;
     undoStack := [] |}.

Definition set_localDoc (d : Doc E) (c : t) : t :=
  {| actorId := actorId c; localDoc := d; shadowDoc := shadowDoc c;
     serverVersion := serverVersion c; touchedPaths := touchedPaths c;
     isOnline := isOnline c; strictMode := strictMode c;
     undoStack := undoStack c |}.

Definition set_shadowDoc (d : Doc E) (c : t) : t :=
  {| actorId := actorId c; localDoc := localDoc c; shadowDoc := d;
     serverVersion := serverVersion c; touchedPaths := touchedPaths c;
     isOnline := isOnline c; strictMode := strictMode c;
     undoStack := undoStack c |}.

Definition set_serverVersion (v : Z) (c : t) : t :=
  {| actorId := actorId c; localDoc := localDoc c; shadowDoc := shadowDoc c;
     serverVersion := v; touchedPaths := touchedPaths c;
     isOnline := isOnline c; strictMode := strictMode c;
     undoStack := undoStack c |}.

Definition set_touchedPaths (ps : list string) (c : t) : t :=
  {| actorId := actorId c; localDoc := localDoc c; shadowDoc := shadowDoc c;
     serverVersion := serverVersion c; touchedPaths := ps;
     isOnline := isOnline c; strictMode := strictMode c;
     undoStack := undoStack c |}.

Definition set_undoStack (st : list (Snapshot E)) (c : t) : t :=
  {| actorId := actorId c; localDoc := localDoc c; shadowDoc := shadowDoc c;
     serverVersion := serverVersion c; touchedPaths := touchedPaths c;
     isOnline := isOnline c; strictMode := strictMode c;
     undoStack := st |}.

(** [client.isOnline = b] and [client.strictMode = b], as [run] sets them. *)
Definition set_isOnline (b : bool) (c : t) : t :=
  {| actorId := actorId c; localDoc := localDoc c; shadowDoc := shadowDoc c;
     serverVersion := serverVersion c; touchedPaths := touchedPaths c;
     isOnline := b; strictMode := strictMode c;
     undoStack := undoStack c |}.

Definition set_strictMode (b : bool) (c : t) : t :=
  {| actorId := actorId c; localDoc := localDoc c; shadowDoc := shadowDoc c;
     serverVersion := serverVersion c; touchedPaths := touchedPaths c;
     isOnline := isOnline c; strictMode := b;
     undoStack := undoStack c |}.

(** [change(message, cb)].  The callback is what it does to the draft: the
    draft it leaves, or the exception it throws.  The snapshot is pushed
    before the engine runs the callback. *)
Definition change (c : t) (message : string) (cb : JVal → Completion JVal)
  : t * Completion unit :=
  let c1 := set_undoStack (undoStack c ++ [A_save E (localDoc c)]) c in
  let headsBefore := A_getHeads E (localDoc c1) in
  match cb (A_view E (localDoc c1)) with
  | Throw e => (c1, Throw e)
  | Ok draft =>
      let c2 := set_localDoc (A_change E (localDoc c1) message draft) c1 in
      let headsAfter := A_getHeads E (localDoc c2) in
      let patches := A_diff E (localDoc c2) headsBefore headsAfter in
      (set_touchedPaths
         (fold_left (λ touched p, setAdd (join_dot p) touched) patches
                    (touchedPaths c2)) c2,
       Ok ())
  end.

(** [undo()] *)
Definition undo (c : t) : t :=
  match undoStack c with
  | [] => c
  | x :: st =>
      let snapshot := List.last (x :: st) x in
      let c1 := set_undoStack (removelast (x :: st)) c in
      set_localDoc (A_load E snapshot) c1
  end.

(** The callback of the strict-mode revert, [conflicts.forEach(path => ...)],
    on the draft and on [this.touchedPaths], which it updates as it goes. *)
Fixpoint revertConflicts (shadow : JVal) (conflicts : list string)
    (d : JVal) (touched : list string) : Completion JVal * list string :=
  match conflicts with
  | [] => (Ok d, touched)
  | path :: rest =>
      let val := getByPath shadow path in
      match setByPath d path val with
      | Throw e => (Throw e, touched)
      | Ok d' => revertConflicts shadow rest d' (setDelete path touched)
      end
  end.

(** The set built by
    [ops.forEach(o => o.touchedPaths.forEach(p => serverChangedPaths.add(p)))]. *)
Definition serverChangedPaths (fetched : list Op) : gset string :=
  list_to_set (flat_map Server.op_touchedPaths fetched).

(** [[...this.touchedPaths].filter(p => serverChangedPaths.has(p))] *)
Definition conflictsOf (touched : list string) (remote : gset string)
  : list string :=
  filter (λ p, p ∈ remote) touched.

(** The strict-mode block of step 1. *)
Definition reconcile (c : t) (remote : gset string) : t * Completion unit :=
  if strictMode c then
    let conflicts := conflictsOf (touchedPaths c) remote in
    match conflicts with
    | [] => (c, Ok ())
    | _ :: _ =>
        match revertConflicts (A_view E (shadowDoc c)) conflicts
                (A_view E (localDoc c)) (touchedPaths c) with
        | (Throw e, touched) => (set_touchedPaths touched c, Throw e)
        | (Ok draft, touched) =>
            (set_localDoc (A_change E (localDoc c) "Revert conflicts" draft)
               (set_touchedPaths touched c),
             Ok ())
        end
    end
  else (c, Ok ()).

(** Step 1 after the fetch: apply what was pulled, then reconcile. *)
Definition pull (c : t) (fetched : list Op) : t * Completion unit :=
  match fetched with
  | [] => (c, Ok ())
  | o :: os =>
      let changes := flat_map Server.op_changes fetched in
      let remote := serverChangedPaths fetched in
      match A_applyChanges E (A_clone E (shadowDoc c)) changes with
      | Throw e => (c, Throw e)
      | Ok newShadow =>
          let c1 := set_shadowDoc newShadow c in
          match A_applyChanges E (A_clone E (localDoc c1)) changes with
          | Throw e => (c1, Throw e)
          | Ok newLocal =>
              let c2 := set_localDoc newLocal c1 in
              let c3 :=
                set_serverVersion (Server.op_version (List.last os o)) c2 in
              reconcile c3 remote
          end
      end
  end.

(** What a sync cycle does that can be observed from outside the client. *)
Inductive Event : Type :=
  | EvFetchSince (v : Z)
  | EvCommit (req : CommitReq)
  | EvConsoleError.                (* console.error(...) of the catch block *)

(** How the promise of [syncNow] settles. *)
Inductive Outcome : Type :=
  | Returned
  | Threw (e : Exn)
  | OutOfFuel.

Record Result : Type := mkResult {
  client : t;
  server : ServerState;
  outcome : Outcome;
  events : list Event
}.

Definition emit (ev : list Event) (r : Result) : Result :=
  {| client := client r; server := server r; outcome := outcome r;
     events := ev ++ events r |}.

Section Cycle.

(** [others k]: the calls of other replicas that reach the server while the
    [k]-th server call of this cycle waits in its [delay]. *)
Variable others : nat → list Call.
(** [uuid n]: what [randomUUID()] returns at the [n]-th commit attempt. *)
Variable uuid : nat → string.

(** [while (retry) { ... }], one iteration per unit of fuel. *)
Fixpoint syncLoop (fuel : nat) (tick attempt : nat) (c : t) (s : ServerState)
  : Result :=
  match fuel with
  | O => mkResult c s OutOfFuel []
  | S fuel' =>
      (* 1. Pull *)
      let s1 := Server.runCalls s (others tick) in
      let '(s1, fetched) := Server.fetchSince s1 (serverVersion c) in
      let ev1 := [EvFetchSince (serverVersion c)] in
      match pull c fetched with
      | (c1, Throw e) => mkResult c1 s1 (Threw e) ev1
      | (c1, Ok _) =>
          (* 2. Compute changes to push *)
          match A_getChanges E (shadowDoc c1) (localDoc c1) with
          | Throw _ => mkResult c1 s1 Returned (ev1 ++ [EvConsoleError])
          | Ok [] => mkResult c1 s1 Returned ev1
          | Ok (ch :: chs) =>
              (* 3. Commit *)
              let req :=
                {| Server.expectedVersion := serverVersion c1;
                   Server.opId := uuid attempt;
                   Server.actorId := actorId c1;
                   Server.changes := ch :: chs;
                   Server.touchedPaths := touchedPaths c1 |} in
              let s2 := Server.runCalls s1 (others (S tick)) in
              let ev2 := ev1 ++ [EvCommit req] in
              match Server.commit s2 req with
              | (s3, Ok ver) =>
                  let c2 :=
                    set_touchedPaths []
                      (set_shadowDoc (localDoc c1)
                         (set_serverVersion ver c1)) in
                  mkResult c2 s3 Returned ev2
              | (s3, Throw (STALE_VERSION _)) =>
                  emit ev2 (syncLoop fuel' (S (S tick)) (S attempt) c1 s3)
              | (s3, Throw e) => mkResult c1 s3 (Threw e) ev2
              end
          end
      end
  end.

(** [syncNow()] *)
Definition syncNow (fuel : nat) (c : t) (s : ServerState) : Result :=
  if isOnline c then syncLoop fuel 0 0 c s
  else mkResult c s Returned [].

End Cycle.

(** The commit calls among the events of a cycle. *)
Definition commitCalls (evs : list Event) : list CommitReq :=
  omap (λ ev, match ev with EvCommit req => Some req | _ => None end) evs.

(** The server calls among the events of a cycle. *)
Definition isServerCall (ev : Event) : bool :=
  match ev with
  | EvFetchSince _ | EvCommit _ => true
  | EvConsoleError => false
  end.

Definition serverCalls (evs : list Event) : list Event :=
  List.filter isServerCall evs.

End WithEngine.
Arguments t : clear implicits.
Arguments Result : clear implicits.
Arguments Event : clear implicits.
End Client.

(** ** A small document engine to run the model on

    A document is the list of changes it has seen; a change is a list of
    writes, each putting a value at a path; reading a document replays the
    writes in order.  Applying changes skips those already seen, and the
    changes between two documents are those of the second that the first
    has not seen.  The patches of a change are reported the way Automerge
    does for the assignments of the demo: an assigned string is a put at its
    path and, when it is not empty, a splice at index [0] inside it. *)

Module Toy.

Record TChange : Type := mkChange {
  cid : string * nat;                       (* actor and sequence number *)
  cwrites : list (list string * JVal)
}.

Record TDoc : Type := mkDoc {
  tactor : string;
  thist : list TChange
}.

Fixpoint fieldDel (k : string) (fs : list (string * JVal))
  : list (string * JVal) :=
  match fs with
  | [] => []
  | (k', v) :: fs' => if decide (k' = k) then fs' else (k', v) :: fieldDel k fs'
  end.

(** The tree after [delete target[last]], where [target] is the object that
    [parts] leads to through objects. *)
Fixpoint deleteAt (o : JVal) (parts : list string) (last : string) : JVal :=
  match parts with
  | [] =>
      match o with
      | JObj fs => JObj (fieldDel last fs)
      | _ => o
      end
  | k :: rest =>
      match o with
      | JObj fs =>
          match fieldGet k fs with
          | JObj _ => JObj (fieldSet k (deleteAt (fieldGet k fs) rest last) fs)
          | _ => o
          end
      | _ => o
      end
  end.

(** A write of a change: a put of the value at the path, a delete when
    there is no value; nothing where the path has no parent object. *)
Definition replayWrite (j : JVal) (w : list string * JVal) : JVal :=
  match w.2 with
  | JUndef => deleteAt j (removelast w.1) (List.last w.1 EmptyString)
  | v => writeAt j (removelast w.1) (List.last w.1 EmptyString) v
  end.

Definition viewOf (h : list TChange) : JVal :=
  fold_left (λ j ch, fold_left replayWrite (cwrites ch) j) h (JObj []).

Definition ids (h : list TChange) : list (string * nat) := map cid h.

Definition unseen (h : list TChange) (ch : TChange) : bool :=
  bool_decide (cid ch ∉ ids h).

(** The paths at which [b] differs from [a], to the depth of the leaves. *)
Fixpoint diffVal (a b : JVal) {struct b} : list (list string) :=
  match b with
  | JUndef => match a with JUndef => [] | _ => [[]] end
  | JStr s =>
      match a with
      | JStr s' => if decide (s = s') then [] else [[]]
      | _ => [[]]
      end
  | JNum n =>
      match a with
      | JNum n' => if decide (n = n') then [] else [[]]
      | _ => [[]]
      end
  | JObj fb =>
      match a with
      | JObj fa =>
          (fix fields (fs : list (string * JVal)) : list (list string) :=
             match fs with
             | [] => []
             | (k, vb) :: fs' =>
                 map (cons k) (diffVal (fieldGet k fa) vb) ++ fields fs'
             end) fb
          ++ map (λ kv, [kv.1])
               (List.filter (λ kv, bool_decide (kv.1 ∉ map fst fb)) fa)
      | _ => [[]]
      end
  end.

(** The paths of the patches that putting [v] at path [p] gives. *)
Fixpoint patchesOf (p : list string) (v : JVal) : list (list string) :=
  match v with
  | JStr s => if decide (s = EmptyString) then [p] else [p; p ++ ["0"]]
  | JObj fs =>
      p :: (fix fields (fs : list (string * JVal)) : list (list string) :=
              match fs with
              | [] => []
              | (k, x) :: rest => patchesOf (p ++ [k]) x ++ fields rest
              end) fs
  | _ => [p]
  end.

Definition patchPaths (before after : JVal) : list (list string) :=
  flat_map (λ p, patchesOf p (getParts after p)) (diffVal before after).

(** A document Automerge would take: no change is twice in its history. *)
Definition wellFormed (d : TDoc) : bool :=
  bool_decide (NoDup (ids (thist d))).

Definition nextId (d : TDoc) : string * nat :=
  (tactor d,
   S (length (List.filter (λ ch, bool_decide ((cid ch).1 = tactor d)) (thist d)))).

Definition tchange (d : TDoc) (message : string) (draft : JVal) : TDoc :=
  match diffVal (viewOf (thist d)) draft with
  | [] => d
  | ps =>
      {| tactor := tactor d;
         thist := thist d ++
           [{| cid := nextId d;
               cwrites := map (λ p, (p, getParts draft p)) ps |}] |}
  end.

Definition tapply (d : TDoc) (cs : list TChange) : Completion TDoc :=
  Ok {| tactor := tactor d;
        thist := fold_left (λ h ch, if unseen h ch then h ++ [ch] else h)
                           cs (thist d) |}.

Definition tgetChanges (old new : TDoc) : Completion (list TChange) :=
  if wellFormed old && wellFormed new
  then Ok (List.filter (unseen (thist old)) (thist new))
  else Throw EngineError.

Definition engine : Engine :=
  {| Doc := TDoc;
     Change := TChange;
     Snapshot := TDoc;
     Heads := nat;
     A_init := λ id, {| tactor := id; thist := [] |};
     A_view := λ d, viewOf (thist d);
     A_save := λ d, d;
     A_load := λ s, s;
     A_getHeads := λ d, length (thist d);
     A_change := tchange;
     A_diff := λ d h1 h2,
       patchPaths (viewOf (take h1 (thist d))) (viewOf (take h2 (thist d)));
     A_clone := λ d, d;
     A_applyChanges := tapply;
     A_getChanges := tgetChanges |}.

End Toy.

(** ** The demo's document and replicas, run on the small engine *)

Module Example.

Definition node (title color desc : string) : JVal :=
  JObj [("title", JStr title); ("color", JStr color); ("desc", JStr desc)].

(** The callback of [alice.change('Init', ...)] in [run]. *)
Definition initCb (d : JVal) : Completion JVal :=
  Ok (JObj [("nodes", JObj [("nodeA", node "Settings" "blue" "Hello");
                            ("nodeB", node "Profile" "green" "World")]);
            ("order", JObj [("0", JStr "nodeA"); ("1", JStr "nodeB")])]).

(** [d => { d.nodes['nodeA'].title = v }] and the like. *)
Definition assignCb (path v : string) (d : JVal) : Completion JVal :=
  setByPath d path (JStr v).

(** No other replica calls the server during the cycle. *)
Definition quiet : nat → list (Server.Call Toy.TChange) := λ _, [].

Definition uuid (tag : string) (n : nat) : string :=
  tag +:+ "-" +:+ pretty n.

Definition sync (tag : string) (c : Client.t Toy.engine)
    (s : Server.t Toy.TChange) : Client.Result Toy.engine :=
  Client.syncNow (E:=Toy.engine) quiet (uuid tag) 4 c s.

(** Alice creates the document and commits it as version 1; Bob pulls it. *)
Definition alice1 : Client.t Toy.engine :=
  (Client.change (Client.init "Alice") "Init" initCb).1.
Definition r1 := sync "a1" alice1 Server.init.
Definition r2 := sync "b1" (Client.init "Bob") (Client.server r1).
Definition alice2 : Client.t Toy.engine := Client.client r1.
Definition bob2 : Client.t Toy.engine := Client.client r2.

(** Alice sets the title of nodeA to "First" and commits version 2. *)
Definition alice3 : Client.t Toy.engine :=
  (Client.change alice2 "Alice title First"
     (assignCb "nodes.nodeA.title" "First")).1.
Definition r3 := sync "a2" alice3 (Client.server r2).

(** Meanwhile Bob, in strict mode, sets the same title and a colour. *)
Definition bobEdits : Client.t Toy.engine :=
  Client.set_strictMode true
    (Client.change
       (Client.change bob2 "Bob title Second"
          (assignCb "nodes.nodeA.title" "Second")).1
       "Bob color red" (assignCb "nodes.nodeB.color" "red")).1.

(** What Bob's next fetch returns: Alice's version 2. *)
Definition fetched : list (Server.Op Toy.TChange) :=
  (Server.fetchSince (Client.server r3) (Client.serverVersion bob2)).2.

Definition applied (d : Toy.TDoc) : Toy.TDoc :=
  match Toy.tapply d (flat_map Server.op_changes fetched) with
  | Ok d' => d'
  | Throw _ => d
  end.

(** Alice's commit of version 2 reaching the server while Bob's first commit
    call waits in its delay. *)
Definition aliceReq : Server.CommitReq Toy.TChange :=
  {| Server.expectedVersion := 1;
     Server.opId := "a2-0";
     Server.actorId := "Alice";
     Server.changes :=
       [Toy.mkChange ("Alice", 2%nat)
          [(["nodes"; "nodeA"; "title"], JStr "First")]];
     Server.touchedPaths := ["nodes.nodeA.title"; "nodes.nodeA.title.0"] |}.

Definition racing (k : nat) : list (Server.Call Toy.TChange) :=
  match k with
  | 1%nat => [Server.CallCommit aliceReq]
  | _ => []
  end.

(** Alice undoes her first change after it was committed: the local
    document is back to the one before the shadow document. *)
Definition aliceUndone : Client.t Toy.engine := Client.undo alice2.

(** Scenario 2b of [run]: Bob, offline, sets the title Alice has set, and
    syncs in strict mode. *)
Definition bobSecond : Client.t Toy.engine :=
  Client.set_strictMode true
    (Client.change bob2 "Bob title Second"
       (assignCb "nodes.nodeA.title" "Second")).1.

(** Both delete nodeB: Alice commits the delete, Bob makes it offline and
    syncs in strict mode. *)
Definition deleteNodeBCb (d : JVal) : Completion JVal :=
  Ok (JObj [("nodes", JObj [("nodeA", node "Settings" "blue" "Hello")]);
            ("order", JObj [("0", JStr "nodeA"); ("1", JStr "nodeB")])]).
Definition aliceDeletes : Client.t Toy.engine :=
  (Client.change alice2 "Alice deletes nodeB" deleteNodeBCb).1.
Definition r3' := sync "a2" aliceDeletes (Client.server r2).
Definition bobDeletes : Client.t Toy.engine :=
  Client.set_strictMode true
    (Client.change bob2 "Bob deletes nodeB" deleteNodeBCb).1.
Definition fetched' : list (Server.Op Toy.TChange) :=
  (Server.fetchSince (Client.server r3') (Client.serverVersion bob2)).2.
Definition applied' (d : Toy.TDoc) : Toy.TDoc :=
  match Toy.tapply d (flat_map Server.op_changes fetched') with
  | Ok d' => d'
  | Throw _ => d
  end.


(** A server that has committed one request, and two further requests. *)
Definition req1 : Server.CommitReq nat := Server.mkReq 0 "k1" "Alice" [7%nat] ["nodes"].
Definition req1' : Server.CommitReq nat := Server.mkReq 5 "k1" "Alice" [7%nat] ["nodes"].
Definition req2 : Server.CommitReq nat := Server.mkReq 0 "k2" "Bob" [8%nat] ["order"].
Definition server1 : Server.t nat := (Server.commit Server.init req1).1.

End Example.

(** ** Sequences of local edits *)

Module ClientRuns.
Section WithEngine.

Context {E : Engine}.

(** [client.change(m1, cb1); client.change(m2, cb2); ...], going on after a
    callback that threw. *)
Definition runChanges (c : Client.t E)
    (edits : list (string * (JVal → Completion JVal))) : Client.t E :=
  fold_left (λ c e, (Client.change c e.1 e.2).1) edits c.

(** Two clients with the same local document and undo stack. *)
Definition sameDocs (c1 c2 : Client.t E) : Prop :=
  Client.localDoc c1 = Client.localDoc c2 ∧
  Client.undoStack c1 = Client.undoStack c2.

(** [client.undo()] called [n] times. *)
Definition undoTimes (n : nat) (c : Client.t E) : Client.t E :=
  Nat.iter n Client.undo c.

End WithEngine.
End ClientRuns.

(** ** Keys with a dot *)

(** Whether a key contains the separator of [join('.')] and [split('.')]. *)
Fixpoint hasDot (k : string) : bool :=
  match k with
  | EmptyString => false
  | String c r => bool_decide (c = "."%char) || hasDot r
  end.

(** ** The log tail the server prints *)

Module Printing.
Section WithChange.

Context {Change : Type}.

(** [l.slice(-n)]: the last [n] elements, all of them when there are
    fewer. *)
Definition sliceLast {A : Type} (n : nat) (l : list A) : list A :=
  drop (length l - n) l.

(** One line of [tail.forEach(op => console.log(...))]. *)
Definition tailLine (op : Server.Op Change) : string :=
  "  Ver " +:+ pretty (Server.op_version op) +:+ " from "
  +:+ Server.op_actorId op +:+ " ("
  +:+ pretty (length (Server.op_changes op)) +:+ " changes)".

(** [printLogTail()]: the lines it writes to the console. *)
Definition printLogTail (s : Server.t Change) : list string :=
  let tail := sliceLast 5 (Server.ops s) in
  ("[automerge-demo][server][LOG] Tail (last " +:+ pretty (length tail) +:+ "):")
  :: (tailLine <$> tail).

End WithChange.
End Printing.

(** ** Further data of the demo's replicas *)

Module Scenario.

Import Example.

(** A server that has committed a second request at version 2, and the
    request of a third replica that raced with it. *)
Definition reqBob : Server.CommitReq nat :=
  Server.mkReq 1 "k2" "Bob" [8%nat] ["order"].
Definition reqCarol : Server.CommitReq nat :=
  Server.mkReq 1 "k3" "Carol" [9%nat] ["nodes"].
Definition server2 : Server.t nat := (Server.commit server1 reqBob).1.

(** The request of Alice's first commit, and the server after it. *)
Definition aliceInitReq : Server.CommitReq Toy.TChange :=
  {| Server.expectedVersion := 0;
     Server.opId := "a1-0";
     Server.actorId := "Alice";
     Server.changes :=
       match A_getChanges Toy.engine (Client.shadowDoc alice1)
               (Client.localDoc alice1) with
       | Ok chs => chs
       | Throw _ => []
       end;
     Server.touchedPaths := Client.touchedPaths alice1 |}.
Definition serverA : Server.t Toy.TChange :=
  Server.call Server.init (Server.CallCommit aliceInitReq).

(** The demo's document after the setup. *)
Definition doc1 : JVal := A_view Toy.engine (Client.localDoc alice2).

(** A callback that assigns below a node that is not there. *)
Definition badCb : JVal → Completion JVal :=
  assignCb "nodes.nodeZ.style.color" "red".

(** A [randomUUID] that returns the key of Alice's first commit again. *)
Definition sameKey : nat → string := λ _, "a1-0".

(** The change of Alice's edit of the title. *)
Definition titleChange : Toy.TChange :=
  Toy.mkChange ("Alice", 2%nat) [(["nodes"; "nodeA"; "title"], JStr "First")].

End Scenario.

(** * The Yjs demo: a relay server and its clients

    [src/demos/yjs-demo/src/index.ts] keeps no versions: the server numbers
    the updates it is sent, relays each one to the subscribed clients and
    hands out the tail of its log; a client queues the updates of its own
    document and follows the server with a cursor. *)

Module Yjs.

(** What the demo uses of Yjs: documents, binary updates, [Y.applyUpdate],
    which changes the document in place and is taken to complete, and
    [Y.mergeUpdates]. *)
Record YEngine : Type := mkYEngine {
  YDoc : Type;
  Update : Type;
  Y_applyUpdate : YDoc → Update → YDoc;
  Y_mergeUpdates : list Update → Update
}.

Section WithEngine.

Context {Y : YEngine}.

(** An element of [Server.log]. *)
Record Entry : Type := mkEntry {
  seq : Z;
  from : string;
  update : Update Y
}.

(** [class Client]: the fields the sync protocol uses.  The [server] field
    is a reference to the one shared server object; its state is kept next to
    the clients'. *)
Record Client : Type := mkClient {
  name : string;
  isOnline : bool;
  queue : list (Update Y);
  serverCursor : Z;
  doc : YDoc Y
}.

Definition set_isOnline (b : bool) (c : Client) : Client :=
  {| name := name c; isOnline := b; queue := queue c;
     serverCursor := serverCursor c; doc := doc c |}.

Definition set_queue (q : list (Update Y)) (c : Client) : Client :=
  {| name := name c; isOnline := isOnline c; queue := q;
     serverCursor := serverCursor c; doc := doc c |}.

Definition set_serverCursor (v : Z) (c : Client) : Client :=
  {| name := name c; isOnline := isOnline c; queue := queue c;
     serverCursor := v; doc := doc c |}.

Definition set_doc (d : YDoc Y) (c : Client) : Client :=
  {| name := name c; isOnline := isOnline c; queue := queue c;
     serverCursor := serverCursor c; doc := d |}.

(** The server object and the clients constructed on it.  Only the
    constructor of [Client] subscribes, so [server.listeners] is the list of
    the clients' handlers, in the order the clients were constructed. *)
Record World : Type := mkWorld {
  log : list Entry;
  clients : list Client
}.

(** [new Server()] *)
Definition newServer : World := {| log := []; clients := [] |}.

(** [new Client(name, server)], with [d] the [new Y.Doc()] it creates; the
    constructor subscribes the client's handler. *)
Definition newClient (nm : string) (d : YDoc Y) (w : World) : World :=
  {| log := log w;
     clients := clients w ++
       [{| name := nm; isOnline := true; queue := []; serverCursor := 0;
           doc := d |}] |}.

(** The handler the constructor subscribes:
    [async (update, from, seq) => { ... }]. *)
Definition onServerUpdate (u : Update Y) (frm : string) (sq : Z)
    (c : Client) : Client :=
  if negb (isOnline c) then c
  else if bool_decide (sq >= serverCursor c) then
    let c1 :=
      if bool_decide (frm ≠ name c)
      then set_doc (Y_applyUpdate Y (doc c) u) c
      else c in
    set_serverCursor (sq + 1) c1
  else c.

(** [notify(update, from, seq)] *)
Definition notify (u : Update Y) (frm : string) (sq : Z)
    (cs : list Client) : list Client :=
  onServerUpdate u frm sq <$> cs.

(** [submit(from, update)], from the end of its delay on: the new world and
    the number it returns. *)
Definition submit (w : World) (frm : string) (u : Update Y) : World * Z :=
  let sq := Z.of_nat (length (log w)) in
  ({| log := log w ++ [mkEntry sq frm u];
      clients := notify u frm sq (clients w) |}, sq).

(** [l.slice(start)] *)
Definition slice {A : Type} (start : Z) (l : list A) : list A :=
  if decide (start < 0)
  then drop (Z.to_nat (Z.max (Z.of_nat (length l) + start) 0)) l
  else drop (Z.to_nat start) l.

(** [fetchSince(cursor)], from the end of its delay on. *)
Definition fetchSince (w : World) (cursor : Z) : list Entry :=
  slice cursor (log w).

(** [flush()] up to its call of [submit]: the client, and the arguments of
    the call when it makes one. *)
Definition flush (c : Client) : Client * option (string * Update Y) :=
  match queue c with
  | [] => (c, None)
  | q => (set_queue [] c, Some (name c, Y_mergeUpdates Y q))
  end.

(** [queueUpdate(update)]; the [flush] it starts is not awaited. *)
Definition queueUpdate (u : Update Y) (c : Client)
  : Client * option (string * Update Y) :=
  let c1 := set_queue (queue c ++ [u]) c in
  if isOnline c1 then flush c1 else (c1, None).

(** The origin of a transaction, as far as the ['update'] handler looks at
    it. *)
Inductive Origin : Type := OriginRemote | OriginOther.

(** The handler of [doc.on('update', ...)]. *)
Definition onDocUpdate (u : Update Y) (origin : Origin) (c : Client)
  : Client * option (string * Update Y) :=
  match origin with
  | OriginRemote => (c, None)
  | OriginOther => queueUpdate u c
  end.

(** A transaction of the client's own ([initDoc], [updateTitle],
    [updateColor], an undo or a redo) that changed the document to [d] and
    fired ['update'] with [u]. *)
Definition transact (d : YDoc Y) (u : Update Y) (c : Client)
  : Client * option (string * Update Y) :=
  onDocUpdate u OriginOther (set_doc d c).

(** One round of the loop of [syncNow]. *)
Definition pullEntry (c : Client) (e : Entry) : Client :=
  let c1 :=
    if bool_decide (from e ≠ name c)
    then set_doc (Y_applyUpdate Y (doc c) (update e)) c
    else c in
  set_serverCursor (Z.max (serverCursor c1) (seq e + 1)) c1.

Definition pull (c : Client) (missing : list Entry) : Client :=
  fold_left pullEntry missing c.

(** The [submit] calls of other tasks that end their delay while a call of
    this task waits in its own. *)
Definition deliverAll (w : World) (evs : list (string * Update Y)) : World :=
  fold_left (λ w ev, (submit w ev.1 ev.2).1) evs w.

(** [syncNow()] of the client at position [i].  The cursor is read when
    [fetchSince] is called, the log when its delay is over; [others 0] are
    the submits that land during the delay of [fetchSince], [others 1] those
    that land during the delay of the client's own [submit]. *)
Definition syncNow (others : nat → list (string * Update Y)) (i : nat)
    (w : World) : World :=
  match clients w !! i with
  | None => w
  | Some c =>
      let cursor := serverCursor c in
      let w1 := deliverAll w (others 0%nat) in
      let missing := fetchSince w1 cursor in
      match clients w1 !! i with
      | None => w1
      | Some c1 =>
          let '(c2, call) := flush (pull c1 missing) in
          let w2 := {| log := log w1; clients := <[i := c2]> (clients w1) |} in
          match call with
          | None => w2
          | Some (frm, u) => (submit (deliverAll w2 (others 1%nat)) frm u).1
          end
      end
  end.

(** What can happen to a world. *)
Inductive Action : Type :=
  | ActNewClient (nm : string) (d : YDoc Y)
  | ActSubmit (frm : string) (u : Update Y)
  | ActSetOnline (i : nat) (b : bool)
  | ActTransact (i : nat) (d : YDoc Y) (u : Update Y)
  | ActSyncNow (others : nat → list (string * Update Y)) (i : nat).

Definition onClient (i : nat) (f : Client → Client) (w : World) : World :=
  match clients w !! i with
  | None => w
  | Some c => {| log := log w; clients := <[i := f c]> (clients w) |}
  end.

Definition act (w : World) (a : Action) : World :=
  match a with
  | ActNewClient nm d => newClient nm d w
  | ActSubmit frm u => (submit w frm u).1
  | ActSetOnline i b => onClient i (set_isOnline b) w
  | ActTransact i d u => onClient i (λ c, (transact d u c).1) w
  | ActSyncNow others i => syncNow others i w
  end.

(** The worlds that can come about: [new Server()] and then clients
    constructed, documents edited, clients switched on and off, [syncNow]
    called and submits landing, in any order. *)
Inductive reachable : World → Prop :=
  | reachable_new : reachable newServer
  | reachable_act w a : reachable w → reachable (act w a).

(** The log numbers its entries by their position, and no cursor is
    negative or beyond the log. *)
Record Inv (w : World) : Prop := mkInv {
  inv_seq : ∀ (i : nat) e, log w !! i = Some e → seq e = Z.of_nat i;
  inv_cursor :
    Forall (λ c, 0 ≤ serverCursor c ≤ Z.of_nat (length (log w))) (clients w)
}.

(** Who sent what, in log order. *)
Definition sent (l : list Entry) : list (string * Update Y) :=
  (λ e, (from e, update e)) <$> l.

(** [Y.applyUpdate] for each update of a list in turn. *)
Definition applyAll (d : YDoc Y) (us : list (Update Y)) : YDoc Y :=
  fold_left (Y_applyUpdate Y) us d.

End WithEngine.
Arguments Entry : clear implicits.
Arguments Client : clear implicits.
Arguments World : clear implicits.
Arguments Action : clear implicits.
End Yjs.

(** ** A small Yjs and two replicas *)

Module YjsExample.

(** Updates are lists of items, a document is the items it has; applying an
    update adds the items not there yet. *)
Definition addItem (d : list string) (x : string) : list string :=
  if bool_decide (x ∈ d) then d else d ++ [x].

Definition engine : Yjs.YEngine :=
  {| Yjs.YDoc := list string;
     Yjs.Update := list string;
     Yjs.Y_applyUpdate := λ d u, fold_left addItem u d;
     Yjs.Y_mergeUpdates := λ q, concat q |}.

Definition quiet : nat → list (string * list string) := λ _, [].

Definition run (w : Yjs.World engine) (acts : list (Yjs.Action engine))
  : Yjs.World engine :=
  fold_left Yjs.act acts w.

(** Alice and Bob on a new server; Alice initialises the document while
    online and her update lands. *)
Definition w1 : Yjs.World engine :=
  run (Yjs.newServer (Y:=engine))
    [Yjs.ActNewClient (Y:=engine) "Alice" []; Yjs.ActNewClient (Y:=engine) "Bob" [];
     Yjs.ActTransact (Y:=engine) 0 ["nodeA"; "nodeB"] ["nodeA"; "nodeB"];
     Yjs.ActSubmit (Y:=engine) "Alice" ["nodeA"; "nodeB"]].

(** Bob goes offline; Alice's next edit lands without him, he edits
    offline and is switched on again. *)
Definition w3 : Yjs.World engine :=
  run w1
    [Yjs.ActSetOnline (Y:=engine) 1 false;
     Yjs.ActTransact (Y:=engine) 0 ["nodeA"; "nodeB"; "title2"] ["title2"];
     Yjs.ActSubmit (Y:=engine) "Alice" ["title2"];
     Yjs.ActTransact (Y:=engine) 1 ["nodeA"; "nodeB"; "red"] ["red"];
     Yjs.ActSetOnline (Y:=engine) 1 true].

(** A further edit of Alice's lands before Bob syncs. *)
Definition w4 : Yjs.World engine :=
  run w3
    [Yjs.ActTransact (Y:=engine) 0 ["nodeA"; "nodeB"; "title2"; "title3"] ["title3"];
     Yjs.ActSubmit (Y:=engine) "Alice" ["title3"]].

(** Bob in [w1], in [w3] and in [w4]. *)
Definition bob1 : Yjs.Client engine :=
  Yjs.mkClient (Y:=engine) "Bob" true [] 1 ["nodeA"; "nodeB"].
Definition bob3 : Yjs.Client engine :=
  Yjs.mkClient (Y:=engine) "Bob" true [["red"]] 1 ["nodeA"; "nodeB"; "red"].
Definition bob4 : Yjs.Client engine :=
  Yjs.mkClient (Y:=engine) "Bob" true [["red"]] 3
    ["nodeA"; "nodeB"; "red"; "title3"].

(** Alice's edit landing while Bob's [fetchSince] waits. *)
Definition landing (k : nat) : list (string * list string) :=
  match k with
  | 0%nat => [("Alice", ["title2"])]
  | _ => []
  end.

End YjsExample.

(** * Properties of the server *)

Section ServerFacts.

Context {Change : Type}.

Abbreviation SOp := (Server.Op Change).
Abbreviation SReq := (Server.CommitReq Change).
Abbreviation SState := (Server.t Change).
Abbreviation SCall := (Server.Call Change).

Implicit Types (s : SState) (req : SReq) (op : SOp) (k : string).

(** The three ways [commit] can go. *)
Lemma commit_seen s req :
  Server.opId req ∈ Server.committedOpIds s →
  Server.commit s req =
    match Server.findOp (Server.opId req) (Server.ops s) with
    | Some op => (s, Ok (Server.op_version op))
    | None => (s, Throw TypeError)
    end.
Proof. intros Hin. unfold Server.commit. by rewrite decide_True. Qed.

Lemma commit_stale s req :
  Server.opId req ∉ Server.committedOpIds s →
  Server.expectedVersion req ≠ Server.version s →
  Server.commit s req = (s, Throw (STALE_VERSION (Server.version s))).
Proof.
  intros Hk Hv. unfold Server.commit.
  rewrite decide_False by done. by rewrite decide_True.
Qed.

Lemma commit_fresh s req :
  Server.opId req ∉ Server.committedOpIds s →
  Server.expectedVersion req = Server.version s →
  Server.commit s req =
    (Server.mkServer
       (Server.version s + 1)
       (Server.ops s ++
          [Server.mkOp (Server.version s + 1) (Server.opId req)
             (Server.actorId req) (Server.changes req)
             (Server.touchedPaths req)])
       ({[Server.opId req]} ∪ Server.committedOpIds s),
     Ok (Server.version s + 1)).
Proof.
  intros Hk Hv. unfold Server.commit.
  rewrite decide_False by done. rewrite decide_False; [done|]. by intros ?.
Qed.

(** Case analysis on a commit, naming the branch taken. *)
Ltac commit_cases s req :=
  destruct (decide (Server.opId req ∈ Server.committedOpIds s)) as [Hseen|Hnew];
  [ rewrite (commit_seen s req Hseen)
  | destruct (decide (Server.expectedVersion req = Server.version s)) as [Hexp|Hexp];
    [ rewrite (commit_fresh s req Hnew Hexp)
    | rewrite (commit_stale s req Hnew Hexp) ] ].

Lemma findOp_Some k (l : list SOp) op :
  Server.findOp k l = Some op → op ∈ l ∧ Server.op_opId op = k.
Proof.
  unfold Server.findOp. intros H. apply List.find_some in H as [Hin Hk].
  apply bool_decide_eq_true in Hk. by rewrite list_elem_of_In.
Qed.

Lemma findOp_elem k (l : list SOp) op :
  op ∈ l → Server.op_opId op = k → is_Some (Server.findOp k l).
Proof.
  intros Hin Hk. destruct (Server.findOp k l) eqn:Hf; [by eexists|].
  exfalso. unfold Server.findOp in Hf.
  apply list_elem_of_In in Hin.
  pose proof (List.find_none _ _ Hf op Hin) as Hb.
  apply bool_decide_eq_false in Hb. done.
Qed.

Lemma findOp_app k (l1 l2 : list SOp) op :
  Server.findOp k l1 = Some op → Server.findOp k (l1 ++ l2) = Some op.
Proof.
  unfold Server.findOp. induction l1 as [|a l1 IH]; simpl; [done|].
  destruct (bool_decide _); [done|]. apply IH.
Qed.

Lemma findOp_app_None k (l1 l2 : list SOp) :
  Server.findOp k l1 = None →
  Server.findOp k (l1 ++ l2) = Server.findOp k l2.
Proof.
  unfold Server.findOp. induction l1 as [|a l1 IH]; simpl; [done|].
  destruct (bool_decide _); [done|]. apply IH.
Qed.

(** The invariant holds initially and every call keeps it. *)
Lemma Inv_init : Server.Inv (@Server.init Change).
Proof.
  split; simpl.
  - done.
  - intros i op H. by rewrite lookup_nil in H.
  - intros k. split; [set_solver|]. intros (op & Hin & _). by apply elem_of_nil in Hin.
Qed.

Lemma Inv_commit s req : Server.Inv s → Server.Inv (Server.commit s req).1.
Proof.
  intros [Hv Hl Hk]. commit_cases s req.
  - destruct (Server.findOp _ _); by split.
  - split; simpl.
    + rewrite length_app. simpl. lia.
    + intros i op Hi. apply lookup_app_Some in Hi as [Hi|[Hge Hi]].
      * by apply Hl.
      * apply list_lookup_singleton_Some in Hi as [Hi <-]. simpl. lia.
    + intros k. rewrite elem_of_union, elem_of_singleton, Hk. split.
      * intros [->|(op & Hin & Hop)].
        -- eexists. split; [apply elem_of_app; right; apply list_elem_of_singleton; done|done].
        -- exists op. split; [|done]. apply elem_of_app. by left.
      * intros (op & Hin & Hop). apply elem_of_app in Hin as [Hin|Hin].
        -- right. by exists op.
        -- apply list_elem_of_singleton in Hin. subst op. simpl in Hop. by left.
  - by split.
Qed.

Lemma Inv_call s (c : SCall) : Server.Inv s → Server.Inv (Server.call s c).
Proof. destruct c; simpl; [done|]. apply Inv_commit. Qed.

Lemma reachable_Inv s : Server.reachable s → Server.Inv s.
Proof. induction 1; [apply Inv_init|by apply Inv_call]. Qed.

Lemma steps_reachable s s' :
  Server.reachable s → Server.steps s s' → Server.reachable s'.
Proof. intros Hr. induction 1; [done|by constructor]. Qed.

Lemma reachable_runCalls s cs :
  Server.reachable s → Server.reachable (Server.runCalls s cs).
Proof.
  revert s. induction cs as [|c cs IH]; intros s Hr; simpl; [done|].
  apply IH. by constructor.
Qed.

(** In a state that satisfies the invariant the lookup of a seen key finds
    its entry. *)
Lemma Inv_find s k :
  Server.Inv s → k ∈ Server.committedOpIds s →
  ∃ op, Server.findOp k (Server.ops s) = Some op ∧
        op ∈ Server.ops s ∧ Server.op_opId op = k.
Proof.
  intros [_ _ Hk] Hin. apply Hk in Hin as (op & Hin & Hop).
  destruct (findOp_elem k _ op Hin Hop) as [op' Hf].
  exists op'. split; [done|]. by apply findOp_Some.
Qed.

Lemma assigned_commit s req k v :
  Server.assigned s k v → Server.assigned (Server.commit s req).1 k v.
Proof.
  intros [Hin (op & Hf & Hv)]. commit_cases s req.
  - destruct (Server.findOp (Server.opId req) _); by split; [|exists op].
  - split; simpl; [set_solver|]. exists op. split; [|done]. by apply findOp_app.
  - by split; [|exists op].
Qed.

Lemma assigned_steps s s' k v :
  Server.assigned s k v → Server.steps s s' → Server.assigned s' k v.
Proof.
  intros Ha. induction 1 as [|s' c _ IH]; [done|].
  destruct c; simpl; [done|]. by apply assigned_commit.
Qed.

Lemma assigned_returns s req v :
  Server.assigned s (Server.opId req) v → Server.commit s req = (s, Ok v).
Proof.
  intros [Hin (op & Hf & Hv)]. rewrite (commit_seen s req Hin), Hf. by rewrite Hv.
Qed.

Lemma commit_Ok_assigned s req s' v :
  Server.Inv s → Server.commit s req = (s', Ok v) →
  Server.assigned s' (Server.opId req) v.
Proof.
  intros HI. commit_cases s req.
  - destruct (Inv_find s _ HI Hseen) as (op & Hf & _). rewrite Hf.
    intros [= <- <-]. split; [done|]. by exists op.
  - intros [= <- <-]. split; simpl; [set_solver|].
    destruct (Server.findOp (Server.opId req) (Server.ops s)) as [op|] eqn:Hf.
    + apply findOp_Some in Hf as [Hin Hop]. destruct HI as [_ _ Hk].
      exfalso. apply Hnew, Hk. by exists op.
    + eexists. split.
      * rewrite (findOp_app_None _ _ _ Hf). unfold Server.findOp. simpl.
        by rewrite bool_decide_eq_true_2.
      * done.
  - done.
Qed.

Lemma commit_length s req :
  (length (Server.ops s) ≤ length (Server.ops (Server.commit s req).1)
   ≤ S (length (Server.ops s)))%nat.
Proof.
  commit_cases s req.
  - destruct (Server.findOp _ _); simpl; lia.
  - simpl. rewrite length_app. simpl. lia.
  - simpl. lia.
Qed.

Lemma runCalls_length s (cs : list SCall) :
  (length (Server.ops s) ≤ length (Server.ops (Server.runCalls s cs)))%nat.
Proof.
  revert s. induction cs as [|c cs IH]; intros s; simpl; [lia|].
  etrans; [|apply IH]. destruct c; simpl; [lia|]. apply commit_length.
Qed.

(** A commit either leaves the server as it is and contributes no version,
    or lengthens the log by one and returns the version plus one. *)
Lemma commit_step s req :
  ((Server.commit s req).1 = s ∧
   ∀ cs, Server.appendedVersions s (Server.CallCommit req :: cs)
         = Server.appendedVersions s cs) ∨
  (length (Server.ops (Server.commit s req).1) = S (length (Server.ops s)) ∧
   ∀ cs, Server.appendedVersions s (Server.CallCommit req :: cs)
         = (Server.version s + 1)
           :: Server.appendedVersions (Server.commit s req).1 cs).
Proof.
  cbn [Server.appendedVersions]. unfold Server.appended.
  commit_cases s req.
  - left. destruct (Server.findOp _ _); (split; [done|]); intros cs;
      by rewrite ?bool_decide_eq_false_2 by (intros H; by apply H).
  - right. cbn [fst Server.ops]. rewrite length_app, Nat.add_1_r.
    split; [done|]. intros cs. by rewrite bool_decide_eq_true_2 by lia.
  - by left.
Qed.

(** With the invariant, the entries newer than [v] are the log without its
    first [v] entries. *)
Lemma filter_newer (l : list SOp) (k : nat) (v : Z) :
  (∀ (i : nat) op, l !! i = Some op →
     Server.op_version op = Z.of_nat (k + i) + 1) →
  filter (λ op, Server.op_version op > v) l = drop (Z.to_nat v - k) l.
Proof.
  revert k. induction l as [|a l IH]; intros k Hl.
  - by rewrite drop_nil.
  - pose proof (Hl 0%nat a eq_refl) as Ha. rewrite Nat.add_0_r in Ha.
    assert (Hl' : ∀ (i : nat) op, l !! i = Some op →
              Server.op_version op = Z.of_nat (S k + i) + 1).
    { intros i op Hi. rewrite (Hl (S i) op Hi). lia. }
    specialize (IH (S k) Hl').
    destruct (decide (Server.op_version a > v)) as [Hgt|Hle].
    + rewrite filter_cons_True by done. rewrite IH.
      replace (Z.to_nat v - k)%nat with 0%nat by lia.
      replace (Z.to_nat v - S k)%nat with 0%nat by lia. done.
    + rewrite filter_cons_False by done. rewrite IH.
      replace (Z.to_nat v - k)%nat with (S (Z.to_nat v - S k)) by lia. done.
Qed.

(** C1: for any server state and any commit request whose key has not been
    seen, when [expectedVersion] differs from the server's version the commit
    throws [STALE_VERSION] carrying the server's version, and the version, the
    log and the set of seen keys are what they were. *)
Theorem commit_stale_rejected s req :
  Server.opId req ∉ Server.committedOpIds s →
  Server.expectedVersion req ≠ Server.version s →
  (Server.commit s req).2 = Throw (STALE_VERSION (Server.version s)) ∧
  (Server.commit s req).1 = s ∧
  Server.version (Server.commit s req).1 = Server.version s ∧
  Server.ops (Server.commit s req).1 = Server.ops s ∧
  Server.committedOpIds (Server.commit s req).1 = Server.committedOpIds s.
Proof.
  intros Hk Hv. by rewrite (commit_stale s req Hk Hv).
Qed.

(** C3: in a server state reached from [new Server()], a commit whose key
    was seen returns the version of the log entry of that key and leaves the
    state as it is; once a commit with a key has returned version [v], every
    later commit with that key returns [v] and changes nothing, whatever
    [expectedVersion] it carries; two commits with one key lengthen the log
    by at most one entry. *)
Theorem commit_idempotent s req1 req2 :
  Server.reachable s →
  Server.opId req2 = Server.opId req1 →
  (Server.opId req1 ∈ Server.committedOpIds s →
   ∃ op, op ∈ Server.ops s ∧ Server.op_opId op = Server.opId req1 ∧
         Server.commit s req1 = (s, Ok (Server.op_version op))) ∧
  (∀ s1 v, Server.commit s req1 = (s1, Ok v) →
     ∀ s', Server.steps s1 s' → Server.commit s' req2 = (s', Ok v)) ∧
  (length (Server.ops (Server.commit (Server.commit s req1).1 req2).1)
   ≤ S (length (Server.ops s)))%nat.
Proof.
  intros Hr Hk. pose proof (reachable_Inv s Hr) as HI. split_and!.
  - intros Hseen. destruct (Inv_find s _ HI Hseen) as (op & Hf & Hin & Hop).
    exists op. split_and!; [done..|]. by rewrite (commit_seen s req1 Hseen), Hf.
  - intros s1 v Hc s' Hs. apply assigned_returns. rewrite Hk.
    eapply assigned_steps; [|done]. by eapply commit_Ok_assigned.
  - destruct (Server.commit s req1) as [s1 r1] eqn:Hc. simpl.
    pose proof (commit_length s req1) as Hlen. rewrite Hc in Hlen. simpl in Hlen.
    destruct r1 as [v|e].
    + assert (Server.commit s1 req2 = (s1, Ok v)) as ->; [|simpl; lia].
      apply assigned_returns. rewrite Hk. by eapply commit_Ok_assigned.
    + assert (s1 = s) as ->.
      { revert Hc. commit_cases s req1; [|done|by intros [= <- _]].
        destruct (Server.findOp _ _); by intros [= <- _]. }
      pose proof (commit_length s req2). lia.
Qed.

(** C4: in every server state reached from [new Server()], the version is
    the length of the log and the entry at index [i] has version [i+1]; a
    commit that appends returns the version plus one, which is the new length
    of the log; and the versions returned by the appending commits of any
    further call sequence are the consecutive numbers after the log length,
    so from [new Server()] they are 1, 2, 3, ... *)
Theorem versions_monotonic s :
  Server.reachable s →
  Server.version s = Z.of_nat (length (Server.ops s)) ∧
  (∀ (i : nat) op, Server.ops s !! i = Some op →
     Server.op_version op = Z.of_nat i + 1) ∧
  (∀ req s' v, Server.commit s req = (s', Ok v) →
     Server.appended s s' = true →
     v = Server.version s + 1 ∧ v = Z.of_nat (length (Server.ops s')) ∧
     Server.version s' = v) ∧
  (∀ cs : list SCall,
     Server.appendedVersions s cs =
       Z.of_nat <$> seq (S (length (Server.ops s)))
         (length (Server.ops (Server.runCalls s cs)) - length (Server.ops s))).
Proof.
  intros Hr. pose proof (reachable_Inv s Hr) as HI. split_and!.
  - apply HI.
  - apply HI.
  - intros req s' v. unfold Server.appended. commit_cases s req.
    + destruct (Server.findOp _ _); intros [= <- <-];
        rewrite bool_decide_eq_true; lia.
    + intros [= <- <-] _. simpl. rewrite length_app. simpl.
      destruct HI as [-> _ _]. lia.
    + done.
  - intros cs. clear Hr. revert s HI.
    induction cs as [|c cs IH]; intros s HI.
    { simpl. by rewrite Nat.sub_diag. }
    destruct c as [v|req]; [apply IH, HI|].
    pose proof (runCalls_length (Server.commit s req).1 cs) as Hmono.
    specialize (IH _ (Inv_commit s req HI)).
    change (Server.runCalls s (Server.CallCommit req :: cs))
      with (Server.runCalls (Server.commit s req).1 cs).
    destruct (commit_step s req) as [[Hs Ha]|[Hlen Ha]]; rewrite Ha.
    + rewrite Hs in IH. by rewrite Hs.
    + rewrite IH, Hlen.
      replace (length (Server.ops (Server.runCalls (Server.commit s req).1 cs))
               - length (Server.ops s))%nat
        with (S (length (Server.ops (Server.runCalls (Server.commit s req).1 cs))
                 - S (length (Server.ops s)))) by lia.
      simpl. f_equal. destruct HI as [-> _ _]. lia.
Qed.

(** C9: [fetchSince(v)] leaves the server as it is and returns the entries of
    the log with a version above [v], each as often and in the order it is in
    the log; asking again gives the same answer.  In a server state reached
    from [new Server()] that is the log without its first [v] entries, in
    strictly ascending version order. *)
Theorem fetchSince_spec s (v : Z) :
  (Server.fetchSince s v).1 = s ∧
  (∀ op, op ∈ (Server.fetchSince s v).2 ↔
         op ∈ Server.ops s ∧ Server.op_version op > v) ∧
  (Server.fetchSince s v).2 `sublist_of` Server.ops s ∧
  Server.fetchSince (Server.fetchSince s v).1 v = Server.fetchSince s v ∧
  (Server.reachable s →
   (Server.fetchSince s v).2 = drop (Z.to_nat v) (Server.ops s) ∧
   ∀ (i j : nat) a b,
     (Server.fetchSince s v).2 !! i = Some a →
     (Server.fetchSince s v).2 !! j = Some b →
     (i < j)%nat → Server.op_version a < Server.op_version b).
Proof.
  unfold Server.fetchSince. simpl. split_and!.
  - done.
  - intros op. rewrite list_elem_of_filter. tauto.
  - apply sublist_filter.
  - done.
  - intros Hr. destruct (reachable_Inv s Hr) as [_ Hl _].
    assert (Hd : filter (λ op, Server.op_version op > v) (Server.ops s)
                 = drop (Z.to_nat v) (Server.ops s)).
    { rewrite (filter_newer _ 0 v); [by rewrite Nat.sub_0_r|].
      intros i op Hi. rewrite (Hl i op Hi). lia. }
    split; [done|]. rewrite Hd. intros i j a b Hi Hj Hij.
    rewrite lookup_drop in Hi, Hj.
    rewrite (Hl _ _ Hi), (Hl _ _ Hj). lia.
Qed.

(** C10: in every server state reached from [new Server()] the seen keys are
    the [opId]s of the log entries; so for a seen key the lookup in the log
    finds an entry, the commit returns that entry's version, and no commit
    throws the [TypeError] of reading [version] off [undefined]. *)
Theorem seen_keys_are_logged s :
  Server.reachable s →
  Server.committedOpIds s = list_to_set (Server.op_opId <$> Server.ops s) ∧
  (∀ req, Server.opId req ∈ Server.committedOpIds s →
     ∃ op, Server.findOp (Server.opId req) (Server.ops s) = Some op ∧
           Server.commit s req = (s, Ok (Server.op_version op))) ∧
  (∀ req, (Server.commit s req).2 ≠ Throw TypeError).
Proof.
  intros Hr. pose proof (reachable_Inv s Hr) as HI. split_and!.
  - apply set_eq. intros k. rewrite elem_of_list_to_set, list_elem_of_fmap.
    destruct HI as [_ _ Hk]. rewrite Hk.
    split; intros (op & H1 & H2); exists op; by split.
  - intros req Hseen. destruct (Inv_find s _ HI Hseen) as (op & Hf & _).
    exists op. split; [done|]. by rewrite (commit_seen s req Hseen), Hf.
  - intros req. commit_cases s req; [|done..].
    destruct (Inv_find s _ HI Hseen) as (op & -> & _). done.
Qed.

End ServerFacts.

(** * Properties of the path helpers *)

Section PathFacts.

Implicit Types (o d v : JVal) (k l : string) (R P : list string).

Lemma fieldGet_fieldSet_eq k v fs : fieldGet k (fieldSet k v fs) = v.
Proof.
  induction fs as [|[k' v'] fs IH]; simpl.
  - by rewrite decide_True.
  - destruct (decide (k' = k)) as [->|Hne]; simpl.
    + by rewrite decide_True.
    + by rewrite decide_False.
Qed.

Lemma fieldGet_fieldSet_ne a k v fs :
  a ≠ k → fieldGet a (fieldSet k v fs) = fieldGet a fs.
Proof.
  intros Hne. induction fs as [|[k' v'] fs IH]; simpl.
  - by rewrite decide_False.
  - destruct (decide (k' = k)) as [->|Hk]; simpl.
    + by rewrite !decide_False.
    + destruct (decide (k' = a)); [done|apply IH].
Qed.

Lemma getParts_falsy o R : truthy o = false → getParts o R = o.
Proof.
  intros Hf. induction R as [|k R IH]; [done|].
  unfold getParts in *. simpl. by rewrite Hf.
Qed.

Lemma getParts_cons o k R :
  getParts o (k :: R) = getParts (if truthy o then getProp o k else o) R.
Proof. done. Qed.

(** Reading a property of a string or a number never gives an object. *)
Lemma charAt_nonobj (i : nat) (s : string) k : isObj (charAt i s k) = false.
Proof.
  revert i. induction s as [|c r IH]; intros i; simpl; [done|].
  destruct (decide _); [done|apply IH].
Qed.

Lemma getProp_nonobj o k : isObj o = false → isObj (getProp o k) = false.
Proof.
  destruct o as [|s|fs|n]; simpl; try done.
  intros _. destruct (decide _); [done|apply charAt_nonobj].
Qed.

Lemma getParts_nonobj o (B : list string) :
  isObj o = false → isObj (getParts o B) = false.
Proof.
  revert o. induction B as [|k B IH]; intros o Ho; [done|].
  rewrite getParts_cons. apply IH.
  destruct (truthy o); [by apply getProp_nonobj|done].
Qed.

Lemma getParts_obj_inv o k R :
  isObj (getParts o (k :: R)) = true →
  ∃ fs, o = JObj fs ∧ isObj (getParts (fieldGet k fs) R) = true.
Proof.
  intros H. destruct o as [|s|fs|n];
    try (by rewrite getParts_nonobj in H).
  exists fs. split; [done|exact H].
Qed.

Lemma navigate_obj o R :
  isObj (getParts o R) = true → navigate o R = Ok (getParts o R).
Proof.
  revert o. induction R as [|k R IH]; intros o H; [done|].
  destruct (getParts_obj_inv o k R H) as (fs & -> & Hobj).
  simpl. by apply IH.
Qed.

(** One more key below an object is read without a throw. *)
Lemma navigate_last o R l :
  isObj (getParts o R) = true →
  navigate o (R ++ [l]) = Ok (getParts o (R ++ [l])).
Proof.
  revert o. induction R as [|k R IH]; intros o H.
  - change (isObj o = true) in H. by destruct o.
  - destruct (getParts_obj_inv o k R H) as (fs & -> & Hobj).
    simpl. by apply IH.
Qed.

Lemma navigate_nonobj o R t :
  isObj o = false → navigate o R = Ok t → isObj t = false.
Proof.
  revert o. induction R as [|k R IH]; intros o Ho; simpl.
  - by intros [= <-].
  - destruct o as [|s|fs|n]; try done; apply IH; by apply getProp_nonobj.
Qed.

Lemma getParts_app o (A B : list string) :
  getParts o (A ++ B) = getParts (getParts o A) B.
Proof. unfold getParts. apply fold_left_app. Qed.

Lemma getParts_obj_start o R : isObj (getParts o R) = true → isObj o = true.
Proof.
  intros H. destruct (isObj o) eqn:Ho; [done|].
  by rewrite (getParts_nonobj o R Ho) in H.
Qed.

(** Reading back what was written. *)
Lemma writeAt_get o R l v :
  isObj (getParts o R) = true → getParts (writeAt o R l v) (R ++ [l]) = v.
Proof.
  revert o. induction R as [|k R IH]; intros o H.
  - destruct o as [| |fs|]; try done. simpl.
    rewrite getParts_cons. simpl. by rewrite fieldGet_fieldSet_eq.
  - destruct (getParts_obj_inv o k R H) as (fs & -> & Hobj).
    pose proof (getParts_obj_start _ _ Hobj) as Hk.
    simpl. destruct (fieldGet k fs) as [| |fk|] eqn:Hfk; try done.
    rewrite getParts_cons. simpl. rewrite fieldGet_fieldSet_eq.
    by apply IH.
Qed.

(** A write leaves alone what is read at a path that neither contains the
    written path nor is contained in it. *)
Lemma writeAt_frame o R l v P :
  ¬ (R ++ [l]) `prefix_of` P → ¬ P `prefix_of` (R ++ [l]) →
  getParts (writeAt o R l v) P = getParts o P.
Proof.
  revert o P. induction R as [|k R IH]; intros o P H1 H2.
  - destruct o as [| |fs|]; try done. simpl.
    destruct P as [|a P]; [destruct H2; apply prefix_nil|].
    rewrite !getParts_cons. simpl.
    rewrite fieldGet_fieldSet_ne; [done|].
    intros ->. apply H1. apply prefix_cons, prefix_nil.
  - destruct o as [| |fs|]; try done. simpl.
    destruct (fieldGet k fs) as [| |fk|] eqn:Hfk; try done.
    destruct P as [|a P]; [destruct H2; apply prefix_nil|].
    rewrite !getParts_cons. simpl.
    destruct (decide (a = k)) as [->|Hne].
    + rewrite fieldGet_fieldSet_eq, Hfk. apply IH.
      * intros Hp. apply H1. simpl. by apply prefix_cons.
      * intros Hp. apply H2. simpl. by apply prefix_cons.
    + by rewrite fieldGet_fieldSet_ne.
Qed.

(** A write keeps an object an object wherever the written path does not
    lead to it or above it. *)
Lemma writeAt_isObj o R l v P :
  ¬ (R ++ [l]) `prefix_of` P →
  isObj (getParts o P) = true →
  isObj (getParts (writeAt o R l v) P) = true.
Proof.
  revert o R. induction P as [|a P IH]; intros o R H1 H.
  - destruct o as [| |fs|]; try done.
    destruct R as [|k R]; simpl; [done|]. by destruct (fieldGet k fs).
  - destruct (getParts_obj_inv o a P H) as (fs & -> & Hobj).
    destruct R as [|k R]; simpl.
    + rewrite getParts_cons. simpl. rewrite fieldGet_fieldSet_ne; [done|].
      intros ->. apply H1. apply prefix_cons, prefix_nil.
    + destruct (fieldGet k fs) as [| |fk|] eqn:Hfk; try done.
      rewrite getParts_cons. simpl.
      destruct (decide (a = k)) as [->|Hne].
      * rewrite fieldGet_fieldSet_eq. apply IH; [|by rewrite <- Hfk].
        intros Hp. apply H1. simpl. by apply prefix_cons.
      * by rewrite fieldGet_fieldSet_ne.
Qed.

Lemma split_dot_nonempty p : split_dot p ≠ [].
Proof.
  destruct p as [|c r]; simpl; [done|].
  destruct (decide _); [done|]. by destruct (split_dot r).
Qed.

Lemma split_dot_snoc p : split_dot p = removelast (split_dot p) ++ [lastKey p].
Proof. apply app_removelast_last, split_dot_nonempty. Qed.

Lemma removelast_prefix (P : list string) : removelast P `prefix_of` P.
Proof.
  destruct (decide (P = [])) as [->|Hne]; [done|].
  rewrite (app_removelast_last EmptyString Hne) at 2. by apply prefix_app_r.
Qed.

Lemma snoc_not_prefix (R : list string) l : ¬ (R ++ [l]) `prefix_of` R.
Proof.
  intros H. apply prefix_length in H. rewrite length_app in H. simpl in H. lia.
Qed.

(** [setByPath] when the parent object is there and the draft takes the
    value: the write happens, the path then reads the written value,
    unrelated paths read what they did, and parents of paths the written one
    is not nested in stay present, as does its own. *)
Lemma setByPath_present d p v :
  parentPresent d p → accepted p v →
  ∃ d', setByPath d p v = Ok d' ∧
        getByPath d' p = v ∧
        (∀ q, unrelated p q → getByPath d' q = getByPath d q) ∧
        (∀ q, ¬ nested p q → parentPresent d q → parentPresent d' q) ∧
        parentPresent d' p.
Proof.
  unfold parentPresent, accepted, lastKey, setByPath, getByPath, setParts.
  intros Hp Hacc. rewrite (navigate_obj _ _ Hp).
  destruct (getParts d (removelast (split_dot p))) as [| |fs|] eqn:Hg;
    try done.
  simpl. rewrite Hacc. eexists. split; [done|]. split_and!.
  - rewrite (split_dot_snoc p) at 3. apply writeAt_get. by rewrite Hg.
  - intros q [Hpq Hqp]. unfold nested in *.
    apply writeAt_frame; by rewrite <- split_dot_snoc.
  - intros q Hpq Hq. apply writeAt_isObj; [|done].
    fold (lastKey p). rewrite <- split_dot_snoc. intros Hpre. apply Hpq.
    unfold nested. etrans; [done|]. apply removelast_prefix.
  - apply writeAt_isObj; [apply snoc_not_prefix|by rewrite Hg].
Qed.

(** [setByPath] when the parent is [undefined], an empty string or zero: the
    guard [if (target)] skips the write. *)
Lemma setByPath_absent d p v t :
  navigate d (removelast (split_dot p)) = Ok t → truthy t = false →
  setByPath d p v = Ok d.
Proof. unfold setByPath, setParts. by intros -> ->. Qed.

(** [setByPath] of [undefined] under an object: the draft refuses it. *)
Lemma setByPath_undefined d p :
  parentPresent d p → setByPath d p JUndef = Throw RangeError.
Proof.
  unfold parentPresent, setByPath, setParts. intros Hp.
  rewrite (navigate_obj _ _ Hp).
  by destruct (getParts d (removelast (split_dot p))).
Qed.

(** [setByPath] when the parent is a string that is not empty or a number
    that is not zero: the assignment throws. *)
Lemma setByPath_primitive d p v t :
  navigate d (removelast (split_dot p)) = Ok t →
  truthy t = true → isObj t = false →
  setByPath d p v = Throw TypeError.
Proof.
  unfold setByPath, setParts. intros -> -> Hno. by destruct t.
Qed.

Lemma navigate_Ok_obj o R fs :
  navigate o R = Ok (JObj fs) → getParts o R = JObj fs.
Proof.
  revert o. induction R as [|k R IH]; intros o; simpl.
  - by intros [= ->].
  - destruct o as [|s|fs0|n]; [done| | |].
    + intros H. by apply navigate_nonobj in H; [|apply getProp_nonobj].
    + intros H. rewrite getParts_cons. simpl. by apply IH.
    + intros H. by apply navigate_nonobj in H.
Qed.

(** The two ways [setByPath] completes: it wrote below a parent that is an
    object, or the parent is not an object and nothing changed. *)
Lemma setByPath_Ok_cases d p v d1 :
  setByPath d p v = Ok d1 →
  (parentPresent d p ∧ accepted p v ∧
   d1 = writeAt d (removelast (split_dot p)) (lastKey p) v) ∨
  (isObj (getParts d (removelast (split_dot p))) = false ∧ d1 = d).
Proof.
  unfold setByPath, setParts, parentPresent, accepted, lastKey.
  destruct (navigate d (removelast (split_dot p))) as [target|e] eqn:Hnav; [|done].
  destruct (isObj (getParts d (removelast (split_dot p)))) eqn:Hobj.
  - rewrite (navigate_obj _ _ Hobj) in Hnav. injection Hnav as <-.
    destruct (getParts d (removelast (split_dot p))); try done.
    simpl. destruct (assignCheck _ v); [done|]. intros [= <-]. by left.
  - destruct target as [|s|fs|n].
    + simpl. intros [= <-]. by right.
    + destruct (truthy (JStr s)); [done|]. intros [= <-]. by right.
    + apply navigate_Ok_obj in Hnav. by rewrite Hnav in Hobj.
    + destruct (truthy (JNum n)); [done|]. intros [= <-]. by right.
Qed.

End PathFacts.

(** * Properties of the client *)

Section ClientFacts.

Context {E : Engine}.

Implicit Types (c : Client.t E) (s : Server.t (Change E)).

(** The revert callback only ever deletes from [touchedPaths], and when it
    finishes it has deleted every conflicting path. *)
Lemma revert_touched shadow cs d t :
  (∀ x, x ∈ (Client.revertConflicts shadow cs d t).2 → x ∈ t) ∧
  (∀ d', (Client.revertConflicts shadow cs d t).1 = Ok d' →
     (Client.revertConflicts shadow cs d t).2 = filter (λ y, y ∉ cs) t).
Proof.
  revert d t. induction cs as [|p cs IH]; intros d t; simpl.
  - split; [done|]. intros _ _. induction t as [|a t IHt]; [done|].
    rewrite filter_cons_True by apply not_elem_of_nil. by f_equal.
  - destruct (setByPath d p _) as [d1|e]; simpl.
    + destruct (IH d1 (setDelete p t)) as [IH1 IH2]. split.
      * intros x Hx. apply IH1 in Hx. unfold setDelete in Hx.
        by apply list_elem_of_filter in Hx as [_ ?].
      * intros d' Hd'. rewrite (IH2 d' Hd'). unfold setDelete.
        rewrite list_filter_filter. apply list_filter_iff.
        intros x. rewrite not_elem_of_cons. tauto.
    + split; [done|]. done.
Qed.

Lemma filter_none {A} (P : A → Prop) `{!∀ x, Decision (P x)} (l : list A) :
  (∀ x, x ∈ l → ¬ P x) → filter P l = [].
Proof.
  induction l as [|a l IH]; intros Hno; [done|].
  rewrite filter_cons_False by (apply Hno; by left).
  apply IH. intros x Hx. apply Hno. by right.
Qed.

(** The revert callback at a path [p] whose shadow value is a string and at
    the path [q] of a key inside [p]: it writes the string at [p], deletes
    [p] from the touched paths, and at [q] finds the string as the parent;
    the assignment throws. *)
Lemma revert_stops_inside_string shadow p q rest d t (s : string) :
  removelast (split_dot q) = split_dot p →
  parentPresent d p →
  lastKey p ≠ EmptyString →
  getByPath shadow p = JStr s →
  s ≠ EmptyString →
  Client.revertConflicts shadow (p :: q :: rest) d t
  = (Throw TypeError, setDelete p t).
Proof.
  intros Hq Hpp Hkey Hsh Hs.
  assert (Hacc : accepted p (JStr s)).
  { unfold accepted, assignCheck. by rewrite decide_False. }
  destruct (setByPath_present d p (JStr s) Hpp Hacc)
    as (d1 & Hset & Hget & _ & _ & Hpp1).
  cbn [Client.revertConflicts]. rewrite Hsh, Hset.
  rewrite (setByPath_primitive d1 q _ (JStr s)); [done| |by simpl; rewrite bool_decide_eq_false_2|done].
  rewrite Hq, (split_dot_snoc p). rewrite navigate_last by done.
  rewrite <- split_dot_snoc. by rewrite <- Hget.
Qed.

(** C2, on the code: the strict revert stops where a conflicting path lies
    inside a string.  For a client in strict mode that pulls entries, when
    the conflicting paths start with a path [p] at which the shadow document
    has a string that is not empty, followed by the path [q] of a key inside
    [p] (such as the splice at index [0] that Automerge reports next to the
    put of an assigned string), the revert callback throws a [TypeError] at
    [q]: no reverting change is made, the local document is the pulled one,
    only [p] has been deleted from the touched paths, [q] is still touched,
    and the pull ends with that exception. *)
Theorem strict_revert_throws_inside_string c
    (fetched : list (Server.Op (Change E))) (newShadow newLocal : Doc E)
    (p q : string) (rest : list string) (s : string) :
  Client.strictMode c = true →
  fetched ≠ [] →
  A_applyChanges E (A_clone E (Client.shadowDoc c))
    (flat_map Server.op_changes fetched) = Ok newShadow →
  A_applyChanges E (A_clone E (Client.localDoc c))
    (flat_map Server.op_changes fetched) = Ok newLocal →
  Client.conflictsOf (Client.touchedPaths c) (Client.serverChangedPaths fetched)
    = p :: q :: rest →
  removelast (split_dot q) = split_dot p →
  parentPresent (A_view E newLocal) p →
  lastKey p ≠ EmptyString →
  getByPath (A_view E newShadow) p = JStr s →
  s ≠ EmptyString →
  let res := Client.pull c fetched in
  res.2 = Throw TypeError ∧
  Client.localDoc res.1 = newLocal ∧
  Client.shadowDoc res.1 = newShadow ∧
  Client.touchedPaths res.1 = setDelete p (Client.touchedPaths c) ∧
  q ∈ Client.touchedPaths res.1.
Proof.
  intros Hstrict Hne Hs Hl Hconf Hq Hpp Hkey Hsh Hstr res.
  destruct fetched as [|o os]; [done|].
  subst res. unfold Client.pull. rewrite Hs.
  cbn [Client.localDoc Client.set_shadowDoc]. rewrite Hl.
  unfold Client.reconcile.
  cbn [Client.strictMode Client.touchedPaths Client.shadowDoc Client.localDoc
       Client.set_serverVersion Client.set_localDoc Client.set_shadowDoc].
  rewrite Hstrict, Hconf.
  rewrite (revert_stops_inside_string _ p q rest _ _ s) by done.
  cbn. split_and!; [done..|].
  unfold setDelete. apply list_elem_of_filter. split.
  - intros ->. pose proof (split_dot_snoc p) as Hsn. rewrite Hq in Hsn.
    apply (f_equal length) in Hsn. rewrite length_app in Hsn.
    simpl in Hsn. lia.
  - assert (Hin : q ∈ Client.conflictsOf (Client.touchedPaths c)
                        (Client.serverChangedPaths (o :: os))).
    { rewrite Hconf. right. by left. }
    unfold Client.conflictsOf in Hin.
    by apply list_elem_of_filter in Hin as [_ ?].
Qed.

(** X30: the strict revert stops where the shadow document has no value.
    For a client in strict mode that pulls entries, when the first
    conflicting path reads [undefined] in the shadow document (both sides
    deleted the key) while its parent object is there in the local one, the
    revert callback assigns [undefined], which the draft refuses: the pull
    ends with a [RangeError], no reverting change is made and the touched
    paths are what they were. *)
Theorem strict_revert_refuses_undefined c
    (fetched : list (Server.Op (Change E))) (newShadow newLocal : Doc E)
    (p : string) (rest : list string) :
  Client.strictMode c = true →
  fetched ≠ [] →
  A_applyChanges E (A_clone E (Client.shadowDoc c))
    (flat_map Server.op_changes fetched) = Ok newShadow →
  A_applyChanges E (A_clone E (Client.localDoc c))
    (flat_map Server.op_changes fetched) = Ok newLocal →
  Client.conflictsOf (Client.touchedPaths c) (Client.serverChangedPaths fetched)
    = p :: rest →
  parentPresent (A_view E newLocal) p →
  getByPath (A_view E newShadow) p = JUndef →
  let res := Client.pull c fetched in
  res.2 = Throw RangeError ∧
  Client.localDoc res.1 = newLocal ∧
  Client.shadowDoc res.1 = newShadow ∧
  Client.touchedPaths res.1 = Client.touchedPaths c.
Proof.
  intros Hstrict Hne Hs Hl Hconf Hpp Hsh res.
  destruct fetched as [|o os]; [done|].
  subst res. unfold Client.pull. rewrite Hs.
  cbn [Client.localDoc Client.set_shadowDoc]. rewrite Hl.
  unfold Client.reconcile.
  cbn [Client.strictMode Client.touchedPaths Client.shadowDoc Client.localDoc
       Client.set_serverVersion Client.set_localDoc Client.set_shadowDoc].
  rewrite Hstrict, Hconf. cbn [Client.revertConflicts].
  rewrite Hsh, (setByPath_undefined _ _ Hpp). by cbn.
Qed.


(** C6: when the local document is the shadow document, the engine finds no
    changes between that document and itself, and the log holds no entry
    newer than the client's version when the fetch runs, a sync cycle makes
    no commit call and leaves the client as it was; the server is as the
    calls of other replicas left it, so unchanged when there were none. *)
Theorem empty_sync_noop (others : nat → list (Server.Call (Change E)))
    (uuid : nat → string) (fuel : nat) c s :
  Client.localDoc c = Client.shadowDoc c →
  A_getChanges E (Client.shadowDoc c) (Client.shadowDoc c) = Ok [] →
  (∀ op, op ∈ Server.ops (Server.runCalls s (others 0%nat)) →
         ¬ Server.op_version op > Client.serverVersion c) →
  let r := Client.syncNow others uuid (S fuel) c s in
  Client.commitCalls (Client.events r) = [] ∧
  Client.client r = c ∧
  Client.outcome r = Client.Returned ∧
  Client.server r =
    (if Client.isOnline c then Server.runCalls s (others 0%nat) else s) ∧
  (others 0%nat = [] → Client.server r = s).
Proof.
  intros Hsame Hnone Hlog r. subst r. unfold Client.syncNow.
  destruct (Client.isOnline c); [|done].
  cbn [Client.syncLoop]. unfold Server.fetchSince.
  rewrite (filter_none _ _ Hlog). simpl. rewrite Hsame, Hnone. simpl.
  split_and!; try done. by intros ->.
Qed.

(** C7, as the code has it: with a non-empty undo stack, [undo()] takes the
    last snapshot off the stack and makes the document loaded from it the
    local document; [touchedPaths], the shadow document and the acknowledged
    version are left as they were. *)
Theorem undo_restores_snapshot c :
  Client.undoStack c ≠ [] →
  ∃ st snap,
    Client.undoStack c = st ++ [snap] ∧
    Client.undoStack (Client.undo c) = st ∧
    Client.localDoc (Client.undo c) = A_load E snap ∧
    Client.touchedPaths (Client.undo c) = Client.touchedPaths c ∧
    Client.shadowDoc (Client.undo c) = Client.shadowDoc c ∧
    Client.serverVersion (Client.undo c) = Client.serverVersion c.
Proof.
  intros Hne. unfold Client.undo.
  destruct (Client.undoStack c) as [|x st] eqn:Hst; [done|].
  exists (removelast (x :: st)), (List.last (x :: st) x).
  split_and!; try done. by apply app_removelast_last.
Qed.

(** C8: when the client is offline [syncNow] returns at once: no server
    call is made and neither the client nor the server changes. *)
Theorem offline_sync_noop (others : nat → list (Server.Call (Change E)))
    (uuid : nat → string) (fuel : nat) c s :
  Client.isOnline c = false →
  Client.syncNow others uuid fuel c s = Client.mkResult c s Client.Returned [] ∧
  Client.serverCalls (Client.events (Client.syncNow others uuid fuel c s)) = [].
Proof. intros Hoff. unfold Client.syncNow. by rewrite Hoff. Qed.

End ClientFacts.

(** * The theorems on the demo's replicas *)

Section Instances.

Import Example.

(** Scenario 2b of [run], strict first-wins: Bob pulls Alice's "First"; the
    revert throws at the path inside the title, [syncNow] rejects, nothing is
    committed and the path inside the title stays touched. *)
Example strict_first_wins_scenario :
  let r := sync "b2" bobSecond (Client.server r3) in
  Client.outcome r = Client.Threw TypeError ∧
  Client.commitCalls (Client.events r) = [] ∧
  Server.version (Client.server r) = 2 ∧
  Client.touchedPaths (Client.client r) = ["nodes.nodeA.title.0"].
Proof. vm_compute. repeat split. Qed.

(** Allow-overwrite, with Alice's commit landing during Bob's first commit
    call: that call is rejected as stale, the loop pulls version 2 and
    commits on the second attempt. *)
Example stale_retry_scenario :
  let r := Client.syncNow (E:=Toy.engine) racing (uuid "b2") 4
             (Client.set_strictMode false bobEdits) (Client.server r2) in
  Client.outcome r = Client.Returned ∧
  Server.expectedVersion <$> Client.commitCalls (Client.events r) = [1; 2] ∧
  Server.version (Client.server r) = 3 ∧
  Client.serverVersion (Client.client r) = 3 ∧
  Client.touchedPaths (Client.client r) = [].
Proof. vm_compute. repeat split. Qed.

(** Alice undoes a change that was already committed and syncs: the changes
    of the local document that the shadow document has not seen are none,
    and the cycle ends with nothing to push. *)
Example undo_then_sync_scenario :
  let r := sync "a3" aliceUndone (Client.server r1) in
  Client.outcome r = Client.Returned ∧
  Client.events r = [Client.EvFetchSince 1].
Proof. vm_compute. repeat split. Qed.

(** What reading inside a string gives. *)
Example string_property_examples :
  getByPath (JObj [("t", JStr "First")]) "t.0" = JStr "F" ∧
  getByPath (JObj [("t", JStr "First")]) "t.length" = JNum 5 ∧
  getByPath (JObj [("t", JStr "First")]) "t.5" = JUndef ∧
  getByPath (JObj [("t", JStr "First")]) "t.01" = JUndef.
Proof. vm_compute. repeat split. Qed.

Example split_dot_examples :
  split_dot "nodes.nodeA.title" = ["nodes"; "nodeA"; "title"] ∧
  split_dot "" = [""] ∧
  split_dot "a..b." = ["a"; ""; "b"; ""] ∧
  join_dot ["nodes"; "nodeA"; "title"] = "nodes.nodeA.title".
Proof. vm_compute. repeat split. Qed.

Lemma commit_stale_rejected_witness :
  (Server.commit server1 req2).2 = Throw (STALE_VERSION 1) ∧
  (Server.commit server1 req2).1 = server1.
Proof.
  destruct (commit_stale_rejected server1 req2) as (H1 & H2 & _).
  - vm_compute. intros H. apply (bool_decide_pack _) in H. vm_compute in H. done.
  - vm_compute. discriminate.
  - split; [exact H1|exact H2].
Defined.

Lemma commit_idempotent_witness :
  Server.commit (Server.commit Server.init req1).1 req1' = (server1, Ok 1).
Proof.
  destruct (commit_idempotent Server.init req1 req1') as (_ & H & _).
  - constructor.
  - reflexivity.
  - apply (H server1 1); [reflexivity|constructor].
Defined.

Lemma versions_monotonic_witness :
  Server.appendedVersions server1
    [Server.CallCommit req1'; Server.CallCommit req2;
     Server.CallCommit (Server.mkReq 1 "k2" "Bob" [8%nat] ["order"]);
     Server.CallFetchSince 0;
     Server.CallCommit (Server.mkReq 2 "k3" "Bob" [9%nat] [])]
  = [2; 3].
Proof.
  destruct (versions_monotonic server1) as (_ & _ & _ & H).
  - apply (Server.reachable_call Server.init (Server.CallCommit req1)).
    constructor.
  - rewrite H. reflexivity.
Defined.

Lemma fetchSince_spec_witness :
  (Server.fetchSince (Server.commit server1 (Server.mkReq 1 "k2" "Bob" [8%nat] [])).1 1).2
  = drop 1 (Server.ops (Server.commit server1 (Server.mkReq 1 "k2" "Bob" [8%nat] [])).1).
Proof.
  destruct (fetchSince_spec
              (Server.commit server1 (Server.mkReq 1 "k2" "Bob" [8%nat] [])).1 1)
    as (_ & _ & _ & _ & H).
  apply H.
  apply (Server.reachable_call server1
           (Server.CallCommit (Server.mkReq 1 "k2" "Bob" [8%nat] []))).
  apply (Server.reachable_call Server.init (Server.CallCommit req1)).
  constructor.
Defined.

Lemma seen_keys_are_logged_witness :
  Server.committedOpIds server1
  = list_to_set (Server.op_opId <$> Server.ops server1).
Proof.
  destruct (seen_keys_are_logged server1) as (H & _).
  - apply (Server.reachable_call Server.init (Server.CallCommit req1)).
    constructor.
  - exact H.
Defined.

(** Scenario 2b: the conflicts are the title and the path inside it; the
    pull ends with the [TypeError], and the path inside the title is still
    touched. *)
Lemma strict_revert_throws_inside_string_witness :
  Client.conflictsOf (Client.touchedPaths bobSecond)
    (Client.serverChangedPaths (E:=Toy.engine) fetched)
  = ["nodes.nodeA.title"; "nodes.nodeA.title.0"] ∧
  (Client.pull bobSecond fetched).2 = Throw TypeError ∧
  Client.localDoc (Client.pull bobSecond fetched).1
  = applied (Client.localDoc bobSecond) ∧
  Client.touchedPaths (Client.pull bobSecond fetched).1
  = ["nodes.nodeA.title.0"].
Proof.
  destruct (strict_revert_throws_inside_string (E:=Toy.engine) bobSecond fetched
              (applied (Client.shadowDoc bobSecond))
              (applied (Client.localDoc bobSecond))
              "nodes.nodeA.title" "nodes.nodeA.title.0" [] "First")
    as (H1 & H2 & _ & H3 & _).
  - reflexivity.
  - vm_compute. discriminate.
  - reflexivity.
  - reflexivity.
  - vm_compute. reflexivity.
  - vm_compute. reflexivity.
  - vm_compute. reflexivity.
  - vm_compute. discriminate.
  - vm_compute. reflexivity.
  - discriminate.
  - split; [vm_compute; reflexivity|]. split; [exact H1|].
    split; [exact H2|]. rewrite H3. vm_compute. reflexivity.
Defined.

(** Both deleted nodeB: the revert assigns [undefined] and the pull ends
    with the [RangeError]. *)
Lemma strict_revert_refuses_undefined_witness :
  (Client.pull bobDeletes fetched').2 = Throw RangeError ∧
  Client.touchedPaths (Client.pull bobDeletes fetched').1 = ["nodes.nodeB"].
Proof.
  destruct (strict_revert_refuses_undefined (E:=Toy.engine) bobDeletes fetched'
              (applied' (Client.shadowDoc bobDeletes))
              (applied' (Client.localDoc bobDeletes)) "nodes.nodeB" [])
    as (H1 & _ & _ & H2).
  - reflexivity.
  - vm_compute. discriminate.
  - reflexivity.
  - reflexivity.
  - vm_compute. reflexivity.
  - vm_compute. reflexivity.
  - vm_compute. reflexivity.
  - split; [exact H1|]. rewrite H2. vm_compute. reflexivity.
Defined.



Lemma empty_sync_noop_witness :
  Client.commitCalls (Client.events (sync "a3" alice2 (Client.server r1))) = [] ∧
  Client.client (sync "a3" alice2 (Client.server r1)) = alice2 ∧
  Client.server (sync "a3" alice2 (Client.server r1)) = Client.server r1.
Proof.
  destruct (empty_sync_noop (E:=Toy.engine) quiet (uuid "a3") 3 alice2
              (Client.server r1)) as (H1 & H2 & _ & _ & H3).
  - reflexivity.
  - reflexivity.
  - apply Forall_forall. vm_compute. repeat constructor. discriminate.
  - split; [exact H1|]. split; [exact H2|]. apply H3. reflexivity.
Defined.

Lemma undo_restores_snapshot_witness :
  ∃ st snap,
    Client.undoStack alice3 = st ++ [snap] ∧
    Client.localDoc (Client.undo alice3) = A_load Toy.engine snap ∧
    Client.touchedPaths (Client.undo alice3)
    = ["nodes.nodeA.title"; "nodes.nodeA.title.0"].
Proof.
  destruct (undo_restores_snapshot (E:=Toy.engine) alice3)
    as (st & snap & Hst & _ & Hl & Ht & _).
  - vm_compute. discriminate.
  - exists st, snap. split; [exact Hst|]. split; [exact Hl|].
    rewrite Ht. reflexivity.
Defined.

(** Alice edits the title and undoes it: the touched paths are what they
    were, so not empty, and they do not cover the restored document, whose
    colour of nodeB is not among them. *)
Lemma undo_keeps_touchedPaths :
  Client.undoStack alice3 ≠ [] ∧
  Client.touchedPaths (Client.undo alice3) = Client.touchedPaths alice3 ∧
  Client.touchedPaths (Client.undo alice3) ≠ [] ∧
  getByPath (A_view Toy.engine (Client.localDoc (Client.undo alice3)))
    "nodes.nodeB.color" = JStr "green" ∧
  "nodes.nodeB.color" ∉ Client.touchedPaths (Client.undo alice3).
Proof.
  split_and!; try (vm_compute; reflexivity); try (vm_compute; discriminate).
  intros H. apply (bool_decide_pack _) in H. vm_compute in H. done.
Qed.

Lemma offline_sync_noop_witness :
  Client.syncNow (E:=Toy.engine) quiet (uuid "b2") 4
    (Client.set_isOnline false bobEdits) (Client.server r3)
  = Client.mkResult (Client.set_isOnline false bobEdits) (Client.server r3)
      Client.Returned [].
Proof.
  destruct (offline_sync_noop (E:=Toy.engine) quiet (uuid "b2") 4
              (Client.set_isOnline false bobEdits) (Client.server r3)) as [H _].
  - reflexivity.
  - exact H.
Defined.

End Instances.

(** * Further properties of the server *)

Section ServerLog.

Context {Change : Type}.

Implicit Types (s : Server.t Change) (req : Server.CommitReq Change)
  (op : Server.Op Change).

(** The entry a commit request becomes. *)
Local Abbreviation entryOf v req :=
  (Server.mkOp v (Server.opId req) (Server.actorId req) (Server.changes req)
     (Server.touchedPaths req)).

Lemma commit_outcomes s req :
  (Server.commit s req).1 = s ∨
  ((Server.opId req ∉ Server.committedOpIds s) ∧
   Server.expectedVersion req = Server.version s ∧
   Server.commit s req =
     (Server.mkServer (Server.version s + 1)
        (Server.ops s ++ [entryOf (Server.version s + 1) req])
        ({[Server.opId req]} ∪ Server.committedOpIds s),
      Ok (Server.version s + 1))).
Proof.
  destruct (decide (Server.opId req ∈ Server.committedOpIds s)) as [Hseen|Hnew].
  - left. rewrite (commit_seen s req Hseen). by destruct (Server.findOp _ _).
  - destruct (decide (Server.expectedVersion req = Server.version s)) as [He|He].
    + right. split_and!; [done..|]. by apply commit_fresh.
    + left. by rewrite (commit_stale s req Hnew He).
Qed.

Lemma commit_grows s req :
  Server.ops s `prefix_of` Server.ops (Server.commit s req).1 ∧
  Server.version s ≤ Server.version (Server.commit s req).1 ∧
  Server.committedOpIds s ⊆ Server.committedOpIds (Server.commit s req).1.
Proof.
  destruct (commit_outcomes s req) as [->|(_ & _ & ->)]; [done|].
  simpl. split_and!; [by apply prefix_app_r|lia|set_solver].
Qed.

(** X1: whatever calls follow, the log only grows at its end (the entries
    there are stay, in place and unchanged), the version never goes down and
    no seen key is forgotten. *)
Theorem log_append_only s s' :
  Server.steps s s' →
  Server.ops s `prefix_of` Server.ops s' ∧
  Server.version s ≤ Server.version s' ∧
  Server.committedOpIds s ⊆ Server.committedOpIds s' ∧
  (∀ (i : nat) op, Server.ops s !! i = Some op → Server.ops s' !! i = Some op).
Proof.
  intros Hsteps.
  assert (H3 : Server.ops s `prefix_of` Server.ops s' ∧
               Server.version s ≤ Server.version s' ∧
               Server.committedOpIds s ⊆ Server.committedOpIds s').
  { induction Hsteps as [|s' c _ (IH1 & IH2 & IH3)]; [done|].
    destruct c as [v|req]; simpl; [done|].
    destruct (commit_grows s' req) as (H1 & H2 & H3).
    split_and!; [by etrans|lia|by etrans]. }
  destruct H3 as (Hp & Hv & Hk). split_and!; [done..|].
  intros i op Hi. by eapply prefix_lookup_Some.
Qed.

Lemma NoDup_commit s req :
  Server.Inv s →
  NoDup (Server.op_opId <$> Server.ops s) →
  NoDup (Server.op_opId <$> Server.ops (Server.commit s req).1).
Proof.
  intros [_ _ Hk] Hnd.
  destruct (commit_outcomes s req) as [->|(Hnew & _ & ->)]; [done|].
  simpl. rewrite fmap_app. apply NoDup_app. split_and!; [done| |].
  - intros k Hin Hin'. apply list_elem_of_singleton in Hin'. simpl in Hin'.
    subst k. apply Hnew, Hk. apply list_elem_of_fmap in Hin as (op & Hop & Hin).
    by exists op.
  - simpl. apply NoDup_singleton.
Qed.

Lemma reachable_NoDup s :
  Server.reachable s → NoDup (Server.op_opId <$> Server.ops s).
Proof.
  induction 1 as [|s c Hr IH]; [constructor|].
  destruct c; simpl; [done|]. apply NoDup_commit; [by apply reachable_Inv|done].
Qed.

(** X2: in every server state reached from [new Server()] no two log
    entries have the same [opId], and there are as many seen keys as log
    entries: each key was appended exactly once. *)
Theorem one_entry_per_key s :
  Server.reachable s →
  NoDup (Server.op_opId <$> Server.ops s) ∧
  size (Server.committedOpIds s) = length (Server.ops s) ∧
  (∀ (i j : nat) a b,
     Server.ops s !! i = Some a → Server.ops s !! j = Some b →
     Server.op_opId a = Server.op_opId b → i = j).
Proof.
  intros Hr. pose proof (reachable_NoDup s Hr) as Hnd.
  destruct (reachable_Inv s Hr) as [_ _ Hk].
  split_and!; [done| |].
  - assert (Server.committedOpIds s
            = list_to_set (Server.op_opId <$> Server.ops s)) as ->.
    { apply set_eq. intros k. rewrite elem_of_list_to_set, list_elem_of_fmap, Hk.
      split; intros (op & H1 & H2); exists op; by split. }
    rewrite size_list_to_set by done. by rewrite length_fmap.
  - intros i j a b Hi Hj Hab.
    apply (NoDup_lookup _ i j (Server.op_opId a) Hnd).
    + by rewrite list_lookup_fmap, Hi.
    + by rewrite list_lookup_fmap, Hj, Hab.
Qed.

(** X3: first to the server wins.  Of two requests with different unseen
    keys that both expect the current version, the one that arrives first is
    appended at version + 1 and the other is rejected as stale with that new
    version and changes nothing. *)
Theorem first_commit_wins s req1 req2 :
  Server.opId req1 ∉ Server.committedOpIds s →
  Server.opId req2 ∉ Server.committedOpIds s →
  Server.opId req1 ≠ Server.opId req2 →
  Server.expectedVersion req1 = Server.version s →
  Server.expectedVersion req2 = Server.version s →
  (Server.commit s req1).2 = Ok (Server.version s + 1) ∧
  Server.ops (Server.commit s req1).1
    = Server.ops s ++ [entryOf (Server.version s + 1) req1] ∧
  Server.commit (Server.commit s req1).1 req2
    = ((Server.commit s req1).1, Throw (STALE_VERSION (Server.version s + 1))).
Proof.
  intros Hk1 Hk2 Hne He1 He2. rewrite (commit_fresh s req1 Hk1 He1). simpl.
  split_and!; [done..|]. apply commit_stale; simpl.
  - rewrite elem_of_union, elem_of_singleton. intros [Heq|Hin]; [|done].
    by apply Hne.
  - lia.
Qed.

(** X4: in a server state reached from [new Server()], a commit that is
    accepted for an unseen key stores the request's key, actor, changes and
    touched paths unchanged under the new version, and a [fetchSince] of the
    version the request expected returns exactly that one entry. *)
Theorem commit_then_fetch s req :
  Server.reachable s →
  Server.opId req ∉ Server.committedOpIds s →
  Server.expectedVersion req = Server.version s →
  let s' := (Server.commit s req).1 in
  (Server.commit s req).2 = Ok (Server.version s + 1) ∧
  Server.version s' = Server.version s + 1 ∧
  last (Server.ops s') = Some (entryOf (Server.version s + 1) req) ∧
  (Server.fetchSince s' (Server.expectedVersion req)).2
    = [entryOf (Server.version s + 1) req].
Proof.
  intros Hr Hk He s'. subst s'. rewrite (commit_fresh s req Hk He). simpl.
  split_and!; [done..|by rewrite last_snoc|].
  destruct (reachable_Inv s Hr) as [Hv Hl _].
  rewrite filter_app, He.
  rewrite (filter_none (λ op, Server.op_version op > Server.version s));
    [|intros op Hin; apply list_elem_of_lookup in Hin as [i Hi];
      pose proof (lookup_lt_Some _ _ _ Hi); rewrite (Hl i op Hi); lia].
  simpl. rewrite filter_cons_True by (simpl; lia). done.
Qed.

(** X5: the version a stale rejection reports is the one to expect next: a
    request with the same key that expects it is accepted, at that version
    plus one. *)
Theorem stale_then_retry s req req' (v : Z) :
  (Server.commit s req).2 = Throw (STALE_VERSION v) →
  Server.opId req' = Server.opId req →
  Server.expectedVersion req' = v →
  (Server.commit (Server.commit s req).1 req').2 = Ok (v + 1) ∧
  Server.ops (Server.commit (Server.commit s req).1 req').1
    = Server.ops s ++ [entryOf (v + 1) req'].
Proof.
  intros Hst Hk He.
  destruct (decide (Server.opId req ∈ Server.committedOpIds s)) as [Hseen|Hnew].
  { rewrite (commit_seen s req Hseen) in Hst.
    by destruct (Server.findOp _ _). }
  destruct (decide (Server.expectedVersion req = Server.version s)) as [Hv|Hv].
  { by rewrite (commit_fresh s req Hnew Hv) in Hst. }
  rewrite (commit_stale s req Hnew Hv) in Hst |- *. simpl in *.
  injection Hst as <-.
  rewrite (commit_fresh s req'); [done|by rewrite Hk|done].
Qed.

Lemma last_drop_lt {A} (l : list A) (n : nat) :
  (n < length l)%nat → last (drop n l) = last l.
Proof.
  intros Hn. rewrite !last_lookup, lookup_drop, length_drop. f_equal. lia.
Qed.

(** X6: in a server state reached from [new Server()], for a version [v]
    that is not negative, [fetchSince(v)] is empty exactly when [v] is at
    least the server's version; otherwise its last entry carries the
    server's version; and it has one entry for each version above [v]. *)
Theorem fetch_reaches_version s (v : Z) :
  Server.reachable s →
  0 ≤ v →
  ((Server.fetchSince s v).2 = [] ↔ Server.version s ≤ v) ∧
  (v < Server.version s →
   ∃ op, last (Server.fetchSince s v).2 = Some op ∧
         Server.op_version op = Server.version s) ∧
  Z.of_nat (length (Server.fetchSince s v).2) = Z.max 0 (Server.version s - v).
Proof.
  intros Hr Hv0. destruct (reachable_Inv s Hr) as [Hv Hl _].
  assert (Hd : (Server.fetchSince s v).2 = drop (Z.to_nat v) (Server.ops s)).
  { unfold Server.fetchSince. simpl.
    rewrite (filter_newer _ 0 v); [by rewrite Nat.sub_0_r|].
    intros i op Hi. rewrite (Hl i op Hi). lia. }
  rewrite Hd. split_and!.
  - rewrite <- length_zero_iff_nil, length_drop. lia.
  - intros Hlt. rewrite last_drop_lt by lia.
    destruct (last (Server.ops s)) as [op|] eqn:Hlast.
    + exists op. split; [done|]. rewrite last_lookup in Hlast.
      rewrite (Hl _ _ Hlast). pose proof (lookup_lt_Some _ _ _ Hlast). lia.
    + apply last_None in Hlast. rewrite Hlast in Hv. simpl in Hv. lia.
  - rewrite length_drop. lia.
Qed.

(** X7: [printLogTail] writes a header and one line for each of the last
    five log entries (for all when there are fewer), in log order; in a
    server state reached from [new Server()] these are the entries that
    [fetchSince(version - 5)] returns. *)
Theorem printLogTail_lines s :
  length (Printing.printLogTail s) = S (Nat.min 5 (length (Server.ops s))) ∧
  (∃ older, Server.ops s = older ++ Printing.sliceLast 5 (Server.ops s) ∧
            tail (Printing.printLogTail s)
            = Printing.tailLine <$> Printing.sliceLast 5 (Server.ops s)) ∧
  (Server.reachable s →
   Printing.sliceLast 5 (Server.ops s)
   = (Server.fetchSince s (Server.version s - 5)).2).
Proof.
  unfold Printing.printLogTail, Printing.sliceLast. split_and!.
  - cbn [length]. rewrite length_fmap, length_drop. lia.
  - exists (take (length (Server.ops s) - 5) (Server.ops s)).
    by rewrite take_drop.
  - intros Hr. destruct (reachable_Inv s Hr) as [Hv Hl _].
    unfold Server.fetchSince. simpl.
    rewrite (filter_newer _ 0 (Server.version s - 5));
      [|intros i op Hi; rewrite (Hl i op Hi); lia].
    f_equal. lia.
Qed.

End ServerLog.

(** * Further properties of the path helpers *)

Section PathRoundTrips.

Implicit Types (o d v : JVal) (k p q : string) (R P : list string).

Lemma concat_cons_cons (x y : string) (l : list string) :
  String.concat "." (x :: y :: l) = x +:+ "." +:+ String.concat "." (y :: l).
Proof. done. Qed.

Lemma join_split p : join_dot (split_dot p) = p.
Proof.
  unfold join_dot. induction p as [|c r IH]; [done|].
  simpl. destruct (decide (c = "."%char)) as [->|Hc].
  - destruct (split_dot r) as [|h t] eqn:Hr; [by destruct (split_dot_nonempty r)|].
    rewrite concat_cons_cons, IH. done.
  - destruct (split_dot r) as [|h t] eqn:Hr; [by destruct (split_dot_nonempty r)|].
    destruct t as [|h' t].
    + simpl in *. by rewrite IH.
    + rewrite concat_cons_cons in *. simpl. by rewrite <- IH.
Qed.

Lemma split_app_dot p q :
  split_dot (p +:+ "." +:+ q) = split_dot p ++ split_dot q.
Proof.
  induction p as [|c r IH]; simpl.
  - done.
  - destruct (decide (c = "."%char)); [by rewrite IH|].
    change (r +:+ String "." q) with (r +:+ "." +:+ q). rewrite IH.
    destruct (split_dot r) as [|h t] eqn:Hr; [by destruct (split_dot_nonempty r)|].
    done.
Qed.

Lemma split_noDot k : hasDot k = false → split_dot k = [k].
Proof.
  induction k as [|c r IH]; [done|]. simpl. intros H.
  apply orb_false_iff in H as [Hc Hr]. apply bool_decide_eq_false in Hc.
  rewrite decide_False by done. by rewrite (IH Hr).
Qed.

Lemma split_join P :
  P ≠ [] → split_dot (join_dot P) = flat_map split_dot P.
Proof.
  unfold join_dot. induction P as [|x P IH]; [done|]. intros _.
  destruct P as [|y P].
  - simpl. by rewrite app_nil_r.
  - rewrite concat_cons_cons, split_app_dot, IH by done. done.
Qed.

(** X8: joining the keys of a path with dots and splitting at the dots are
    inverse to each other as far as they can be: splitting and joining
    again gives the string back; joining a non-empty list of keys and
    splitting gives the keys back when no key contains a dot, and in general
    gives the pieces of the keys between their dots. *)
Theorem path_string_round_trip :
  (∀ p, join_dot (split_dot p) = p) ∧
  (∀ P, P ≠ [] → split_dot (join_dot P) = flat_map split_dot P) ∧
  (∀ P, P ≠ [] → Forall (λ k, hasDot k = false) P →
        split_dot (join_dot P) = P).
Proof.
  split_and!; [apply join_split|apply split_join|].
  intros P Hne Hno. rewrite split_join by done. clear Hne.
  induction Hno as [|k P Hk _ IH]; [done|].
  simpl. by rewrite (split_noDot k Hk), IH.
Qed.

(** X9: [getByPath] reads a path in steps: reading [p.q] is reading [q] in
    what [p] reads; and once a read gives a falsy value ([undefined] for a
    missing key, or an empty string), every longer path reads that same
    value, so a path below a missing key reads [undefined] and never
    throws. *)
Theorem getByPath_steps o p q :
  getByPath o (p +:+ "." +:+ q) = getByPath (getByPath o p) q ∧
  (truthy (getByPath o p) = false →
   getByPath o (p +:+ "." +:+ q) = getByPath o p) ∧
  (getByPath o p = JUndef → getByPath o (p +:+ "." +:+ q) = JUndef).
Proof.
  unfold getByPath. rewrite split_app_dot, getParts_app. split_and!.
  - done.
  - intros Hf. by apply getParts_falsy.
  - intros ->. by apply getParts_falsy.
Qed.






Lemma fieldSet_fieldSet k a b fs :
  fieldSet k a (fieldSet k b fs) = fieldSet k a fs.
Proof.
  induction fs as [|[k' v'] fs IH]; simpl.
  - by rewrite decide_True.
  - destruct (decide (k' = k)) as [->|Hne]; simpl.
    + by rewrite decide_True.
    + rewrite decide_False by done. by rewrite IH.
Qed.

Lemma writeAt_obj o R l v : isObj o = true → isObj (writeAt o R l v) = true.
Proof.
  destruct o as [| |fs|]; try done. intros _.
  destruct R as [|k R]; simpl; [done|]. by destruct (fieldGet k fs).
Qed.

Lemma writeAt_idem o R l v :
  writeAt (writeAt o R l v) R l v = writeAt o R l v.
Proof.
  revert o. induction R as [|k R IH]; intros o.
  - destruct o as [| |fs|]; try done. simpl. by rewrite fieldSet_fieldSet.
  - destruct o as [| |fs|]; try done. simpl.
    destruct (fieldGet k fs) as [| |fk|] eqn:Hk; simpl; rewrite ?Hk; try done.
    rewrite fieldGet_fieldSet_eq.
    pose proof (writeAt_obj (JObj fk) R l v eq_refl) as Hobj.
    destruct (writeAt (JObj fk) R l v) as [| |fw|] eqn:Hw; try done.
    rewrite <- Hw at 1. rewrite <- Hw, IH, fieldSet_fieldSet. by rewrite Hw.
Qed.

(** X11: [setByPath] is idempotent: after it has completed, doing the same
    assignment again completes and changes nothing more. *)
Theorem setByPath_idempotent d p v d1 :
  setByPath d p v = Ok d1 → setByPath d1 p v = Ok d1.
Proof.
  intros Hset.
  destruct (setByPath_Ok_cases _ _ _ _ Hset) as [(Hp & Hacc & Hd1)|[_ ->]];
    [|done].
  assert (Hp1 : parentPresent d1 p).
  { unfold parentPresent in *. rewrite Hd1. apply writeAt_isObj; [|done].
    apply snoc_not_prefix. }
  destruct (setByPath_present d1 p v Hp1 Hacc) as (d2 & Hset2 & _).
  destruct (setByPath_Ok_cases _ _ _ _ Hset2) as [(_ & _ & Hd2)|[Hno _]].
  - rewrite Hset2, Hd2, Hd1. by rewrite writeAt_idem.
  - unfold parentPresent in Hp1. by rewrite Hp1 in Hno.
Qed.

End PathRoundTrips.

(** * Further properties of the client: local edits and undo *)

Section ClientEdits.

Context {E : Engine}.

Implicit Types (c : Client.t E).

Lemma elem_of_setAdd x y (l : list string) : x ∈ setAdd y l ↔ x ∈ l ∨ x = y.
Proof.
  unfold setAdd. destruct (decide (y ∈ l)) as [Hin|Hnot].
  - split; [by left|]. intros [?| ->]; done.
  - rewrite elem_of_app, list_elem_of_singleton. done.
Qed.

Lemma setAdd_prefix y (l : list string) : l `prefix_of` setAdd y l.
Proof.
  unfold setAdd. destruct (decide (y ∈ l)); [done|]. by apply prefix_app_r.
Qed.

Lemma setAdd_NoDup y (l : list string) : NoDup l → NoDup (setAdd y l).
Proof.
  intros Hnd. unfold setAdd. destruct (decide (y ∈ l)) as [Hin|Hnot]; [done|].
  apply NoDup_app. split_and!; [done| |apply NoDup_singleton].
  intros x Hx Hx'. apply list_elem_of_singleton in Hx'. by subst x.
Qed.

(** What [patches.forEach(p => this.touchedPaths.add(p.path.join('.')))]
    does to the touched paths. *)
Lemma addPatches_spec (patches : list (list string)) (touched : list string) :
  let touched' :=
    fold_left (λ t p, setAdd (join_dot p) t) patches touched in
  touched `prefix_of` touched' ∧
  (∀ x, x ∈ touched' ↔ x ∈ touched ∨ ∃ p, p ∈ patches ∧ x = join_dot p) ∧
  (NoDup touched → NoDup touched').
Proof.
  revert touched. induction patches as [|p ps IH]; intros touched; simpl.
  - split_and!; [done| |done]. intros x. split; [by left|].
    intros [?|(p & Hp & _)]; [done|by apply elem_of_nil in Hp].
  - destruct (IH (setAdd (join_dot p) touched)) as (H1 & H2 & H3).
    split_and!.
    + etrans; [apply setAdd_prefix|done].
    + intros x. rewrite H2, elem_of_setAdd. split.
      * intros [[?| ->]|(q & Hq & ->)]; [by left| |].
        -- right. exists p. split; [by left|done].
        -- right. exists q. split; [by right|done].
      * intros [?|(q & Hq & ->)]; [by left; left|].
        apply elem_of_cons in Hq as [->|Hq]; [by left; right|].
        right. by exists q.
    + intros Hnd. by apply H3, setAdd_NoDup.
Qed.

(** X12: a local change whose callback completes pushes one undo snapshot,
    the saved document from before the change, makes the result of
    [A.change] the local document, and adds to the touched paths, after the
    ones there were, the dotted path of every patch of the change and nothing
    else, without repeating a path; the shadow document and the acknowledged
    version are left alone. *)
Theorem change_bookkeeping c (message : string)
    (cb : JVal → Completion JVal) (draft : JVal) :
  cb (A_view E (Client.localDoc c)) = Ok draft →
  let c' := (Client.change c message cb).1 in
  let newDoc := A_change E (Client.localDoc c) message draft in
  let patches :=
    A_diff E newDoc (A_getHeads E (Client.localDoc c)) (A_getHeads E newDoc) in
  (Client.change c message cb).2 = Ok () ∧
  Client.localDoc c' = newDoc ∧
  Client.undoStack c' = Client.undoStack c ++ [A_save E (Client.localDoc c)] ∧
  Client.touchedPaths c `prefix_of` Client.touchedPaths c' ∧
  (∀ x, x ∈ Client.touchedPaths c' ↔
        x ∈ Client.touchedPaths c ∨ ∃ p, p ∈ patches ∧ x = join_dot p) ∧
  (NoDup (Client.touchedPaths c) → NoDup (Client.touchedPaths c')) ∧
  Client.shadowDoc c' = Client.shadowDoc c ∧
  Client.serverVersion c' = Client.serverVersion c.
Proof.
  intros Hcb c' newDoc patches. subst c'. unfold Client.change.
  cbn [Client.localDoc Client.set_undoStack]. rewrite Hcb.
  cbn [fst snd Client.localDoc Client.undoStack Client.touchedPaths
       Client.shadowDoc Client.serverVersion Client.set_touchedPaths
       Client.set_localDoc Client.set_undoStack].
  fold newDoc. fold patches.
  destruct (addPatches_spec patches (Client.touchedPaths c)) as (H1 & H2 & H3).
  by split_and!.
Qed.

(** X13: a local change whose callback throws still leaves its undo
    snapshot behind: the exception comes out of [change], the local document
    and the touched paths are what they were, and the undo stack is one
    snapshot longer; with an engine that loads what it saved, an [undo] right
    after it gives back the client as it was before the failed change. *)
Theorem change_callback_throws c (message : string)
    (cb : JVal → Completion JVal) (e : Exn) :
  cb (A_view E (Client.localDoc c)) = Throw e →
  let c' := (Client.change c message cb).1 in
  (Client.change c message cb).2 = Throw e ∧
  Client.localDoc c' = Client.localDoc c ∧
  Client.touchedPaths c' = Client.touchedPaths c ∧
  Client.undoStack c' = Client.undoStack c ++ [A_save E (Client.localDoc c)] ∧
  (A_load E (A_save E (Client.localDoc c)) = Client.localDoc c →
   Client.undo c' = c).
Proof.
  intros Hcb c'. subst c'. unfold Client.change.
  cbn [Client.localDoc Client.set_undoStack]. rewrite Hcb.
  cbn [fst snd Client.localDoc Client.undoStack Client.touchedPaths
       Client.set_undoStack].
  split_and!; [done..|]. intros Hload. unfold Client.undo.
  cbn [Client.undoStack Client.set_undoStack].
  destruct (Client.undoStack c ++ [A_save E (Client.localDoc c)])
    as [|x st] eqn:Hst; [by destruct (Client.undoStack c)|].
  rewrite <- Hst. rewrite removelast_last, last_last, Hload.
  by destruct c.
Qed.

Lemma undo_sameDocs c1 c2 :
  ClientRuns.sameDocs c1 c2 → ClientRuns.sameDocs (Client.undo c1) (Client.undo c2).
Proof.
  intros [Hl Hu]. unfold Client.undo. rewrite Hu.
  destruct (Client.undoStack c2) eqn:H2; split; simpl; congruence.
Qed.

Lemma undoTimes_sameDocs n c1 c2 :
  ClientRuns.sameDocs c1 c2 →
  ClientRuns.sameDocs (ClientRuns.undoTimes n c1) (ClientRuns.undoTimes n c2).
Proof.
  intros H. induction n as [|n IH]; [done|]. by apply undo_sameDocs.
Qed.

Lemma undo_touchedPaths c :
  Client.touchedPaths (Client.undo c) = Client.touchedPaths c.
Proof. unfold Client.undo. by destruct (Client.undoStack c). Qed.

Lemma change_undoStack c message cb :
  Client.undoStack (Client.change c message cb).1
  = Client.undoStack c ++ [A_save E (Client.localDoc c)].
Proof.
  unfold Client.change. cbn [Client.localDoc Client.set_undoStack].
  by destruct (cb _).
Qed.

Lemma undo_change_sameDocs c message cb :
  A_load E (A_save E (Client.localDoc c)) = Client.localDoc c →
  ClientRuns.sameDocs (Client.undo (Client.change c message cb).1) c.
Proof.
  intros Hload. pose proof (change_undoStack c message cb) as Hst.
  unfold Client.undo. destruct (Client.undoStack _) as [|x st] eqn:Hx.
  { by destruct (Client.undoStack c). }
  rewrite Hst. split; simpl.
  - by rewrite last_last.
  - by rewrite removelast_last.
Qed.

(** X14: undo takes back local edits one by one.  With an engine that loads
    what it saved, after any sequence of local changes (callbacks that threw
    included) as many [undo]s give back the local document and the undo stack
    from before the changes; the touched paths are not taken back, they stay
    as the changes left them. *)
Theorem changes_then_undos c
    (edits : list (string * (JVal → Completion JVal))) :
  (∀ d, A_load E (A_save E d) = d) →
  let c' := ClientRuns.undoTimes (length edits) (ClientRuns.runChanges c edits) in
  Client.localDoc c' = Client.localDoc c ∧
  Client.undoStack c' = Client.undoStack c ∧
  Client.touchedPaths c' = Client.touchedPaths (ClientRuns.runChanges c edits).
Proof.
  intros Hload c'. subst c'.
  assert (Hdocs : ClientRuns.sameDocs
            (ClientRuns.undoTimes (length edits) (ClientRuns.runChanges c edits)) c).
  { induction edits as [|e edits IH] using rev_ind; [done|].
    unfold ClientRuns.runChanges. rewrite fold_left_app, length_app. simpl.
    rewrite Nat.add_1_r. unfold ClientRuns.undoTimes. rewrite Nat.iter_succ_r.
    destruct (undoTimes_sameDocs (length edits) _ _
                (undo_change_sameDocs (ClientRuns.runChanges c edits) e.1 e.2
                   (Hload _))) as [H1 H2].
    destruct IH as [IH1 IH2]. unfold ClientRuns.undoTimes, ClientRuns.runChanges in *.
    split; congruence. }
  destruct Hdocs as [H1 H2]. split_and!; [done..|]. clear H1 H2.
  generalize (ClientRuns.runChanges c edits). intros c0.
  generalize (length edits). intros n.
  induction n as [|n IH]; [done|].
  unfold ClientRuns.undoTimes in *. simpl. by rewrite undo_touchedPaths.
Qed.

End ClientEdits.

(** * Further properties of the client: the sync cycle *)

Section ClientSync.

Context {E : Engine}.

Variable others : nat → list (Server.Call (Change E)).
Variable uuid : nat → string.

Implicit Types (c : Client.t E) (s : Server.t (Change E))
  (r : Client.Result E) (req : Server.CommitReq (Change E)).

(** The server when the call made at [tick] runs, what the fetch returns
    then, and the request of a commit attempt. *)
Local Abbreviation arrive tick s := (Server.runCalls s (others tick)).
Local Abbreviation fetchedAt tick c s :=
  (Server.fetchSince (arrive tick s) (Client.serverVersion c)).2.
Local Abbreviation requestOf c attempt chs :=
  (Server.mkReq (Client.serverVersion c) (uuid attempt) (Client.actorId c)
     chs (Client.touchedPaths c)).
Local Abbreviation acked c ver :=
  (Client.set_touchedPaths []
     (Client.set_shadowDoc (Client.localDoc c) (Client.set_serverVersion ver c))).

(** Induction over the iterations of the loop, one case for each way an
    iteration can go. *)
Lemma syncLoop_cases
    (P : nat → nat → nat → Client.t E → Server.t (Change E) →
         Client.Result E → Prop) :
  (∀ tick attempt c s,
     P 0%nat tick attempt c s (Client.mkResult c s Client.OutOfFuel [])) →
  (∀ fuel tick attempt c s c1 e,
     Client.pull c (fetchedAt tick c s) = (c1, Throw e) →
     P (S fuel) tick attempt c s
       (Client.mkResult c1 (arrive tick s) (Client.Threw e)
          [Client.EvFetchSince (Client.serverVersion c)])) →
  (∀ fuel tick attempt c s c1 e,
     Client.pull c (fetchedAt tick c s) = (c1, Ok ()) →
     A_getChanges E (Client.shadowDoc c1) (Client.localDoc c1) = Throw e →
     P (S fuel) tick attempt c s
       (Client.mkResult c1 (arrive tick s) Client.Returned
          [Client.EvFetchSince (Client.serverVersion c); Client.EvConsoleError])) →
  (∀ fuel tick attempt c s c1,
     Client.pull c (fetchedAt tick c s) = (c1, Ok ()) →
     A_getChanges E (Client.shadowDoc c1) (Client.localDoc c1) = Ok [] →
     P (S fuel) tick attempt c s
       (Client.mkResult c1 (arrive tick s) Client.Returned
          [Client.EvFetchSince (Client.serverVersion c)])) →
  (∀ fuel tick attempt c s c1 ch chs s3 ver,
     Client.pull c (fetchedAt tick c s) = (c1, Ok ()) →
     A_getChanges E (Client.shadowDoc c1) (Client.localDoc c1) = Ok (ch :: chs) →
     Server.commit (arrive (S tick) (arrive tick s))
       (requestOf c1 attempt (ch :: chs)) = (s3, Ok ver) →
     P (S fuel) tick attempt c s
       (Client.mkResult (acked c1 ver) s3 Client.Returned
          [Client.EvFetchSince (Client.serverVersion c);
           Client.EvCommit (requestOf c1 attempt (ch :: chs))])) →
  (∀ fuel tick attempt c s c1 ch chs s3 v,
     Client.pull c (fetchedAt tick c s) = (c1, Ok ()) →
     A_getChanges E (Client.shadowDoc c1) (Client.localDoc c1) = Ok (ch :: chs) →
     Server.commit (arrive (S tick) (arrive tick s))
       (requestOf c1 attempt (ch :: chs)) = (s3, Throw (STALE_VERSION v)) →
     P fuel (S (S tick)) (S attempt) c1 s3
       (Client.syncLoop others uuid fuel (S (S tick)) (S attempt) c1 s3) →
     P (S fuel) tick attempt c s
       (Client.emit
          [Client.EvFetchSince (Client.serverVersion c);
           Client.EvCommit (requestOf c1 attempt (ch :: chs))]
          (Client.syncLoop others uuid fuel (S (S tick)) (S attempt) c1 s3))) →
  (∀ fuel tick attempt c s c1 ch chs s3 e,
     Client.pull c (fetchedAt tick c s) = (c1, Ok ()) →
     A_getChanges E (Client.shadowDoc c1) (Client.localDoc c1) = Ok (ch :: chs) →
     Server.commit (arrive (S tick) (arrive tick s))
       (requestOf c1 attempt (ch :: chs)) = (s3, Throw e) →
     (∀ v, e ≠ STALE_VERSION v) →
     P (S fuel) tick attempt c s
       (Client.mkResult c1 s3 (Client.Threw e)
          [Client.EvFetchSince (Client.serverVersion c);
           Client.EvCommit (requestOf c1 attempt (ch :: chs))])) →
  ∀ fuel tick attempt c s,
    P fuel tick attempt c s (Client.syncLoop others uuid fuel tick attempt c s).
Proof.
  intros H0 Hpull Hdiv Hnone Hok Hstale Hthrow.
  induction fuel as [|fuel IH]; intros tick attempt c s; [apply H0|].
  cbn [Client.syncLoop]. unfold Server.fetchSince.
  specialize (Hpull fuel tick attempt c s). specialize (Hdiv fuel tick attempt c s).
  specialize (Hnone fuel tick attempt c s). specialize (Hok fuel tick attempt c s).
  specialize (Hstale fuel tick attempt c s).
  specialize (Hthrow fuel tick attempt c s).
  unfold Server.fetchSince in *. cbn [snd] in *.
  destruct (Client.pull c _) as [c1 [[]|e]]; [|by apply Hpull].
  specialize (Hdiv c1). specialize (Hnone c1 eq_refl). specialize (Hok c1).
  specialize (Hstale c1). specialize (Hthrow c1).
  destruct (A_getChanges E _ _) as [[|ch chs]|e]; [by apply Hnone| |by eapply Hdiv].
  specialize (Hok ch chs). specialize (Hstale ch chs). specialize (Hthrow ch chs).
  destruct (Server.commit _ _) as [s3 [ver|e]]; [by apply Hok|].
  destruct e as [v| | |].
  - apply (Hstale s3 v); [done..|]. apply IH.
  - by apply Hthrow.
  - by apply Hthrow.
  - by apply Hthrow.
Qed.

Lemma steps_trans s1 s2 s3 :
  Server.steps s1 s2 → Server.steps s2 s3 → Server.steps s1 s3.
Proof. intros H12. induction 1; [done|by constructor]. Qed.

Lemma steps_runCalls s (cs : list (Server.Call (Change E))) :
  Server.steps s (Server.runCalls s cs).
Proof.
  revert s. induction cs as [|x cs IH]; intros s; [constructor|].
  simpl. eapply steps_trans; [|apply IH].
  apply (Server.steps_call s s x). constructor.
Qed.

Lemma steps_commit s req s' (res : Completion Z) :
  Server.commit s req = (s', res) → Server.steps s s'.
Proof.
  intros Hc. replace s' with (Server.call s (Server.CallCommit req)).
  - apply Server.steps_call. constructor.
  - simpl. by rewrite Hc.
Qed.

Lemma steps_attempt tick s req s' (res : Completion Z) :
  Server.commit (arrive (S tick) (arrive tick s)) req = (s', res) →
  Server.steps s s'.
Proof.
  intros Hc. eapply steps_trans; [apply steps_runCalls|].
  eapply steps_trans; [apply steps_runCalls|]. by eapply steps_commit.
Qed.

Lemma syncLoop_steps fuel tick attempt c s :
  Server.steps s
    (Client.server (Client.syncLoop others uuid fuel tick attempt c s)).
Proof.
  revert fuel tick attempt c s.
  apply (syncLoop_cases (λ _ _ _ _ s r, Server.steps s (Client.server r)));
    intros; simpl; try apply steps_runCalls; try constructor;
    try (by eapply steps_attempt).
  eapply steps_trans; [by eapply steps_attempt|done].
Qed.

(** What the strict-mode block and the pull leave alone. *)
Lemma reconcile_frame c (remote : gset string) :
  let c' := (Client.reconcile c remote).1 in
  Client.actorId c' = Client.actorId c ∧
  Client.isOnline c' = Client.isOnline c ∧
  Client.strictMode c' = Client.strictMode c ∧
  Client.undoStack c' = Client.undoStack c ∧
  Client.serverVersion c' = Client.serverVersion c ∧
  (∀ p, p ∈ Client.touchedPaths c' → p ∈ Client.touchedPaths c) ∧
  (Client.strictMode c = false → Client.reconcile c remote = (c, Ok ())).
Proof.
  unfold Client.reconcile. destruct (Client.strictMode c) eqn:Hs; [|done].
  destruct (Client.conflictsOf _ _) as [|p cs] eqn:Hc; [done|].
  pose proof (revert_touched (A_view E (Client.shadowDoc c)) (p :: cs)
    (A_view E (Client.localDoc c)) (Client.touchedPaths c)) as [Hsub _].
  destruct (Client.revertConflicts _ _ _ _) as [[draft|e] t']; simpl in *;
    by split_and!.
Qed.

Lemma pull_frame c (fetched : list (Server.Op (Change E))) :
  let c' := (Client.pull c fetched).1 in
  Client.actorId c' = Client.actorId c ∧
  Client.isOnline c' = Client.isOnline c ∧
  Client.strictMode c' = Client.strictMode c ∧
  Client.undoStack c' = Client.undoStack c ∧
  (∀ p, p ∈ Client.touchedPaths c' → p ∈ Client.touchedPaths c).
Proof.
  unfold Client.pull. destruct fetched as [|o os]; [done|].
  destruct (A_applyChanges E _ _) as [newShadow|e]; [|done].
  cbn [Client.localDoc Client.set_shadowDoc].
  destruct (A_applyChanges E _ _) as [newLocal|e]; [|done].
  set (c3 := Client.set_serverVersion _ _).
  destruct (reconcile_frame c3 (Client.serverChangedPaths (o :: os)))
    as (H1 & H2 & H3 & H4 & _ & H5 & _).
  by split_and!.
Qed.

Lemma List_last_cons {A} (x d : A) (os : list A) :
  List.last (x :: os) d = List.last os x.
Proof.
  revert x d. induction os as [|y os IH]; intros x d; [done|].
  change (List.last (x :: y :: os) d) with (List.last (y :: os) d).
  by rewrite !IH.
Qed.

Lemma last_cons_default {A} (o : A) (os : list A) :
  last (o :: os) = Some (List.last os o).
Proof.
  revert o. induction os as [|x os IH]; intros o; [done|].
  rewrite last_cons, (IH x). by rewrite List_last_cons.
Qed.

(** After a pull that completes the acknowledged version is the version of
    the last entry pulled, and in allow-overwrite mode the touched paths are
    what they were. *)
Lemma pull_version c (fetched : list (Server.Op (Change E))) c1 (u : unit) :
  Client.pull c fetched = (c1, Ok u) →
  Client.serverVersion c1
  = match last fetched with
    | Some op => Server.op_version op
    | None => Client.serverVersion c
    end.
Proof.
  unfold Client.pull. destruct fetched as [|o os]; [by intros [= <-]|].
  rewrite last_cons_default.
  destruct (A_applyChanges E _ _) as [newShadow|e]; [|done].
  cbn [Client.localDoc Client.set_shadowDoc].
  destruct (A_applyChanges E _ _) as [newLocal|e]; [|done].
  set (c3 := Client.set_serverVersion _ _).
  destruct (reconcile_frame c3 (Client.serverChangedPaths (o :: os)))
    as (_ & _ & _ & _ & Hv & _).
  intros Hp. rewrite Hp in Hv. done.
Qed.

Lemma pull_allow_overwrite c (fetched : list (Server.Op (Change E))) :
  Client.strictMode c = false →
  Client.touchedPaths (Client.pull c fetched).1 = Client.touchedPaths c ∧
  (∀ e, (Client.pull c fetched).2 = Throw e →
     ∃ d cs, A_applyChanges E d cs = Throw e).
Proof.
  intros Hs. unfold Client.pull. destruct fetched as [|o os]; [done|].
  destruct (A_applyChanges E (A_clone E (Client.shadowDoc c)) _)
    as [newShadow|e] eqn:H1.
  2: { split; [done|]. cbn [snd]. intros e' [= <-]. eauto. }
  cbn [Client.localDoc Client.set_shadowDoc].
  destruct (A_applyChanges E (A_clone E (Client.localDoc c)) _)
    as [newLocal|e] eqn:H2.
  2: { split; [done|]. cbn [snd]. intros e' [= <-]. eauto. }
  set (c3 := Client.set_serverVersion _ _).
  destruct (reconcile_frame c3 (Client.serverChangedPaths (o :: os)))
    as (_ & _ & _ & _ & _ & _ & Hr).
  rewrite (Hr Hs). done.
Qed.

Lemma commit_Ok_entry s req s' (v : Z) :
  Server.commit s req = (s', Ok v) →
  ∃ op, op ∈ Server.ops s' ∧ Server.op_opId op = Server.opId req ∧
        Server.op_version op = v.
Proof.
  destruct (decide (Server.opId req ∈ Server.committedOpIds s)) as [Hseen|Hnew].
  - rewrite (commit_seen s req Hseen).
    destruct (Server.findOp _ _) as [op|] eqn:Hf; [|done].
    intros [= <- <-]. apply findOp_Some in Hf as [Hin Hop]. by exists op.
  - destruct (decide (Server.expectedVersion req = Server.version s)) as [He|He].
    + rewrite (commit_fresh s req Hnew He). intros [= <- <-].
      exists (Server.mkOp (Server.version s + 1) (Server.opId req)
                (Server.actorId req) (Server.changes req)
                (Server.touchedPaths req)).
      split; [|done]. simpl. apply elem_of_app. right.
      by apply list_elem_of_singleton.
    + by rewrite (commit_stale s req Hnew He).
Qed.

Lemma commit_throws s req (e : Exn) :
  (Server.commit s req).2 = Throw e →
  (e = STALE_VERSION (Server.version s) ∧
   Server.expectedVersion req ≠ Server.version s) ∨
  (e = TypeError ∧ ¬ Server.Inv s).
Proof.
  destruct (decide (Server.opId req ∈ Server.committedOpIds s)) as [Hseen|Hnew].
  - rewrite (commit_seen s req Hseen).
    destruct (Server.findOp _ _) as [op|] eqn:Hf; [done|].
    intros [= <-]. right. split; [done|]. intros HI.
    destruct (Inv_find s _ HI Hseen) as (op & Hf' & _). congruence.
  - destruct (decide (Server.expectedVersion req = Server.version s)) as [He|He].
    + by rewrite (commit_fresh s req Hnew He).
    + rewrite (commit_stale s req Hnew He). intros [= <-]. by left.
Qed.

(** With the invariant, what a fetch from a version between 0 and the
    server's returns ends at the server's version. *)
Lemma fetch_last_version s (v : Z) :
  Server.Inv s → 0 ≤ v ≤ Server.version s →
  match last (Server.fetchSince s v).2 with
  | Some op => Server.op_version op
  | None => v
  end = Server.version s.
Proof.
  intros [Hv Hl _] Hrange. unfold Server.fetchSince. simpl.
  rewrite (filter_newer _ 0 v);
    [|intros i op Hi; rewrite (Hl i op Hi); lia].
  rewrite Nat.sub_0_r.
  destruct (decide (v = Server.version s)) as [->|Hne].
  - rewrite Hv, Nat2Z.id, drop_all. simpl. done.
  - rewrite last_drop_lt by lia.
    destruct (last (Server.ops s)) as [op|] eqn:Hlast.
    + rewrite last_lookup in Hlast. rewrite (Hl _ _ Hlast).
      pose proof (lookup_lt_Some _ _ _ Hlast). lia.
    + apply last_None in Hlast. rewrite Hlast in Hv. simpl in Hv. lia.
Qed.

Lemma commitCalls_emit (ev : list (Client.Event E)) r :
  Client.commitCalls (Client.events (Client.emit ev r))
  = Client.commitCalls ev ++ Client.commitCalls (Client.events r).
Proof. unfold Client.commitCalls. simpl. apply omap_app. Qed.

Lemma steps_grow s s' :
  Server.steps s s' →
  Server.ops s `prefix_of` Server.ops s' ∧ Server.version s ≤ Server.version s'.
Proof.
  induction 1 as [|s' x _ [IH1 IH2]]; [done|].
  destruct x as [v|req]; simpl; [done|].
  destruct (commit_grows s' req) as (H1 & H2 & _). split; [by etrans|lia].
Qed.

(** X15: a sync cycle acts on the server only by calling [fetchSince] and
    [commit]: whatever the client, the schedule of the other replicas and
    the way the cycle ends, the server it leaves is the server it found after
    some calls of those two methods, so the log it leaves starts with the log
    it found and a server reached from [new Server()] stays one. *)
Theorem sync_only_calls_server (fuel : nat) c s :
  let r := Client.syncNow others uuid fuel c s in
  Server.steps s (Client.server r) ∧
  Server.ops s `prefix_of` Server.ops (Client.server r) ∧
  (Server.reachable s → Server.reachable (Client.server r)).
Proof.
  intros r.
  assert (Hsteps : Server.steps s (Client.server r)).
  { subst r. unfold Client.syncNow. destruct (Client.isOnline c).
    - apply syncLoop_steps.
    - constructor. }
  split_and!; [done|by apply steps_grow|].
  intros Hr. by eapply steps_reachable.
Qed.

Lemma syncLoop_frame (fuel tick attempt : nat) c s :
  let r := Client.syncLoop others uuid fuel tick attempt c s in
  Client.actorId (Client.client r) = Client.actorId c ∧
  Client.isOnline (Client.client r) = Client.isOnline c ∧
  Client.strictMode (Client.client r) = Client.strictMode c ∧
  Client.undoStack (Client.client r) = Client.undoStack c ∧
  (∀ p, p ∈ Client.touchedPaths (Client.client r) →
        p ∈ Client.touchedPaths c).
Proof.
  revert fuel tick attempt c s.
  apply (syncLoop_cases (λ _ _ _ c _ r,
    Client.actorId (Client.client r) = Client.actorId c ∧
    Client.isOnline (Client.client r) = Client.isOnline c ∧
    Client.strictMode (Client.client r) = Client.strictMode c ∧
    Client.undoStack (Client.client r) = Client.undoStack c ∧
    (∀ p, p ∈ Client.touchedPaths (Client.client r) →
          p ∈ Client.touchedPaths c)));
    try (intros; done);
    intros fuel tick attempt c s c1; intros;
    match goal with
    | Hp : Client.pull c ?f = (c1, _) |- _ =>
        pose proof (pull_frame c f) as Hf; rewrite Hp in Hf;
        cbn [fst] in Hf; destruct Hf as (F1 & F2 & F3 & F4 & F5)
    end;
    cbn [Client.client Client.emit Client.actorId Client.isOnline
         Client.strictMode Client.undoStack Client.touchedPaths
         Client.set_touchedPaths Client.set_shadowDoc Client.set_serverVersion];
    try (split_and!; done).
  - split_and!; [done..|]. intros p Hp'. by apply elem_of_nil in Hp'.
  - match goal with
    | IH : _ ∧ _ |- _ => destruct IH as (G1 & G2 & G3 & G4 & G5)
    end.
    split_and!; [congruence..|]. intros p Hp'. by apply F5, G5.
Qed.

(** X16: a sync cycle never changes the client's actor id, connectivity,
    conflict policy or undo stack, and it never adds a touched path: every
    path touched afterwards was touched before. *)
Theorem sync_client_frame (fuel : nat) c s :
  let r := Client.syncNow others uuid fuel c s in
  Client.actorId (Client.client r) = Client.actorId c ∧
  Client.isOnline (Client.client r) = Client.isOnline c ∧
  Client.strictMode (Client.client r) = Client.strictMode c ∧
  Client.undoStack (Client.client r) = Client.undoStack c ∧
  (∀ p, p ∈ Client.touchedPaths (Client.client r) →
        p ∈ Client.touchedPaths c).
Proof.
  intros r. subst r. unfold Client.syncNow.
  pose proof (syncLoop_frame fuel 0 0 c s) as Hloop.
  destruct (Client.isOnline c) eqn:Hon; [apply Hloop|].
  simpl. by rewrite Hon.
Qed.

(** The facts about the pull of an iteration, named. *)
Ltac pull_facts c c1 :=
  match goal with
  | Hp : Client.pull c ?f = (c1, _) |- _ =>
      let Hf := fresh "Hf" in
      pose proof (pull_frame c f) as Hf; rewrite Hp in Hf;
      cbn [fst] in Hf; destruct Hf as (F1 & F2 & F3 & F4 & F5)
  end.

Lemma syncLoop_requests (fuel tick attempt : nat) c s :
  let reqs :=
    Client.commitCalls
      (Client.events (Client.syncLoop others uuid fuel tick attempt c s)) in
  (length reqs ≤ fuel)%nat ∧
  Server.opId <$> reqs = uuid <$> seq attempt (length reqs) ∧
  Forall (λ req,
    Server.changes req ≠ [] ∧
    Server.actorId req = Client.actorId c ∧
    ∀ p, p ∈ Server.touchedPaths req → p ∈ Client.touchedPaths c) reqs.
Proof.
  revert fuel tick attempt c s.
  apply (syncLoop_cases (λ fuel _ attempt c _ r,
    (length (Client.commitCalls (Client.events r)) ≤ fuel)%nat ∧
    Server.opId <$> Client.commitCalls (Client.events r)
      = uuid <$> seq attempt (length (Client.commitCalls (Client.events r))) ∧
    Forall (λ req,
      Server.changes req ≠ [] ∧
      Server.actorId req = Client.actorId c ∧
      ∀ p, p ∈ Server.touchedPaths req → p ∈ Client.touchedPaths c)
      (Client.commitCalls (Client.events r))));
    try solve [intros; simpl; split_and!; [lia|done|constructor]];
    intros fuel tick attempt c s c1; intros; pull_facts c c1.
  - simpl. split_and!; [lia|done|]. repeat constructor; simpl; done.
  - rewrite commitCalls_emit.
    match goal with
    | IH : _ ∧ _ |- _ => destruct IH as (G1 & G2 & G3)
    end.
    cbn [Client.commitCalls omap app length fmap list_fmap seq] in *.
    simpl. split_and!; [lia|f_equal; exact G2|].
    constructor; [simpl; done|].
    eapply Forall_impl; [exact G3|]. simpl.
    intros req (K1 & K2 & K3). split_and!; [done|congruence|].
    intros p Hp'. by apply F5, K3.
  - simpl. split_and!; [lia|done|]. repeat constructor; simpl; done.
Qed.

(** X17: the commit requests of a sync cycle.  There is at most one per
    loop iteration; the first carries the first key [randomUUID] returned,
    the next the next one, and so on, a new key for every attempt; each
    carries a change set that is not empty, the client's actor id, and only
    paths that were touched when the cycle began. *)
Theorem sync_commit_requests (fuel : nat) c s :
  let reqs :=
    Client.commitCalls (Client.events (Client.syncNow others uuid fuel c s)) in
  (length reqs ≤ fuel)%nat ∧
  Server.opId <$> reqs = uuid <$> seq 0 (length reqs) ∧
  Forall (λ req,
    Server.changes req ≠ [] ∧
    Server.actorId req = Client.actorId c ∧
    ∀ p, p ∈ Server.touchedPaths req → p ∈ Client.touchedPaths c) reqs.
Proof.
  unfold Client.syncNow. destruct (Client.isOnline c).
  - apply syncLoop_requests.
  - simpl. split_and!; [lia|done|constructor].
Qed.

Lemma syncLoop_acknowledged (fuel tick attempt : nat) c s :
  let r := Client.syncLoop others uuid fuel tick attempt c s in
  (Client.outcome r = Client.OutOfFuel ∨ Client.events r ≠ []) ∧
  (Client.outcome r = Client.Returned →
   ∀ req, last (Client.events r) = Some (Client.EvCommit req) →
     Client.shadowDoc (Client.client r) = Client.localDoc (Client.client r) ∧
     Client.touchedPaths (Client.client r) = [] ∧
     ∃ op, op ∈ Server.ops (Client.server r) ∧
           Server.op_opId op = Server.opId req ∧
           Server.op_version op = Client.serverVersion (Client.client r)).
Proof.
  revert fuel tick attempt c s.
  apply (syncLoop_cases (λ _ _ _ _ _ r,
    (Client.outcome r = Client.OutOfFuel ∨ Client.events r ≠ []) ∧
    (Client.outcome r = Client.Returned →
     ∀ req, last (Client.events r) = Some (Client.EvCommit req) →
       Client.shadowDoc (Client.client r) = Client.localDoc (Client.client r) ∧
       Client.touchedPaths (Client.client r) = [] ∧
       ∃ op, op ∈ Server.ops (Client.server r) ∧
             Server.op_opId op = Server.opId req ∧
             Server.op_version op = Client.serverVersion (Client.client r))));
    try solve [intros; simpl; split; [by auto|]; intros ? ? ?; done].
  - intros fuel tick attempt c s c1 ch chs s3 ver Hp Hch Hc. simpl.
    split; [by right|]. intros _ req [= <-]. split_and!; [done..|].
    by apply (commit_Ok_entry _ _ _ _ Hc).
  - intros fuel tick attempt c s c1 ch chs s3 v Hp Hch Hc [IH1 IH2].
    split; [by right|]. cbn [Client.outcome Client.client Client.server
      Client.events Client.emit].
    intros Hret req Hlast. apply IH2; [done|].
    destruct IH1 as [Hout|Hne]; [congruence|].
    rewrite last_app in Hlast.
    destruct (last (Client.events _)) as [ev|] eqn:Hl; [done|].
    by apply last_None in Hl.
Qed.

(** X18: when a sync cycle returns right after a commit call, that commit
    was accepted: the shadow document is the local document, no path is
    touched any more, and the server's log holds an entry with the key of
    that request whose version is the version the client now takes as
    acknowledged. *)
Theorem sync_returns_after_commit (fuel : nat) c s req :
  let r := Client.syncNow others uuid fuel c s in
  Client.outcome r = Client.Returned →
  last (Client.events r) = Some (Client.EvCommit req) →
  Client.shadowDoc (Client.client r) = Client.localDoc (Client.client r) ∧
  Client.touchedPaths (Client.client r) = [] ∧
  ∃ op, op ∈ Server.ops (Client.server r) ∧
        Server.op_opId op = Server.opId req ∧
        Server.op_version op = Client.serverVersion (Client.client r).
Proof.
  unfold Client.syncNow. destruct (Client.isOnline c); [|done].
  intros Hret Hlast. by apply (syncLoop_acknowledged fuel 0 0 c s).
Qed.

Lemma syncLoop_allow_overwrite (fuel tick attempt : nat) c s :
  let r := Client.syncLoop others uuid fuel tick attempt c s in
  Client.strictMode c = false →
  Forall (λ req, Server.touchedPaths req = Client.touchedPaths c)
    (Client.commitCalls (Client.events r)) ∧
  (Client.commitCalls (Client.events r) = [] →
   Client.touchedPaths (Client.client r) = Client.touchedPaths c).
Proof.
  revert fuel tick attempt c s.
  apply (syncLoop_cases (λ _ _ _ c _ r,
    Client.strictMode c = false →
    Forall (λ req, Server.touchedPaths req = Client.touchedPaths c)
      (Client.commitCalls (Client.events r)) ∧
    (Client.commitCalls (Client.events r) = [] →
     Client.touchedPaths (Client.client r) = Client.touchedPaths c)));
    try solve [intros; simpl; split; [constructor|done]];
    intros fuel tick attempt c s c1; intros; pull_facts c c1;
    match goal with
    | Hp : Client.pull c ?f = (c1, _), Hs : Client.strictMode c = false |- _ =>
        let Ht := fresh "Ht" in
        destruct (pull_allow_overwrite c f Hs) as [Ht _];
        rewrite Hp in Ht; cbn [fst] in Ht
    end;
    try solve [simpl; split; [constructor|done]].
  - simpl. split; [|done]. by repeat constructor.
  - rewrite commitCalls_emit. simpl.
    match goal with
    | IH : Client.strictMode c1 = false → _ |- _ =>
        destruct IH as [G1 _]; [congruence|]
    end.
    split; [|done]. constructor; [done|].
    eapply Forall_impl; [exact G1|]. simpl. intros req Hreq. congruence.
  - simpl. split; [|done]. by repeat constructor.
Qed.

(** X19: in allow-overwrite mode a sync cycle does not reconcile: every
    commit request it sends, whatever was pulled before, lists exactly the
    paths that were touched when the cycle began, and when it sends none the
    touched paths are what they were. *)
Theorem allow_overwrite_keeps_touched (fuel : nat) c s :
  let r := Client.syncNow others uuid fuel c s in
  Client.strictMode c = false →
  Forall (λ req, Server.touchedPaths req = Client.touchedPaths c)
    (Client.commitCalls (Client.events r)) ∧
  (Client.commitCalls (Client.events r) = [] →
   Client.touchedPaths (Client.client r) = Client.touchedPaths c).
Proof.
  unfold Client.syncNow. destruct (Client.isOnline c).
  - apply syncLoop_allow_overwrite.
  - intros _. simpl. split; [constructor|done].
Qed.

Lemma syncLoop_never_throws (fuel tick attempt : nat) c s :
  let r := Client.syncLoop others uuid fuel tick attempt c s in
  Client.strictMode c = false →
  Server.reachable s →
  (∀ d cs, ∃ d', A_applyChanges E d cs = Ok d') →
  ∀ e, Client.outcome r ≠ Client.Threw e.
Proof.
  revert fuel tick attempt c s.
  apply (syncLoop_cases (λ _ _ _ c s r,
    Client.strictMode c = false →
    Server.reachable s →
    (∀ d cs, ∃ d', A_applyChanges E d cs = Ok d') →
    ∀ e, Client.outcome r ≠ Client.Threw e));
    try solve [intros; simpl; done].
  - intros fuel tick attempt c s c1 e Hp Hs _ Htotal e'. simpl.
    destruct (pull_allow_overwrite c (fetchedAt tick c s) Hs) as [_ Hthrow].
    rewrite Hp in Hthrow. destruct (Hthrow e eq_refl) as (d & cs & Happ).
    destruct (Htotal d cs) as [d' Hd']. congruence.
  - intros fuel tick attempt c s c1 ch chs s3 v Hp Hch Hc IH Hs Hr Htotal e.
    cbn [Client.outcome Client.emit]. apply IH; [|by eapply steps_reachable, steps_attempt|done].
    pose proof (pull_frame c (fetchedAt tick c s)) as Hf. rewrite Hp in Hf.
    cbn [fst] in Hf. destruct Hf as (_ & _ & F3 & _). congruence.
  - intros fuel tick attempt c s c1 ch chs s3 e Hp Hch Hc Hns Hs Hr Htotal e'.
    exfalso. pose proof (commit_throws (arrive (S tick) (arrive tick s))
      (requestOf c1 attempt (ch :: chs)) e) as Hth.
    rewrite Hc in Hth. destruct (Hth eq_refl) as [[-> _]|[_ Hinv]].
    + by eapply Hns.
    + apply Hinv, reachable_Inv.
      by do 2 apply reachable_runCalls.
Qed.

(** X20: stale rejections never come out of a sync cycle.  In
    allow-overwrite mode, against a server reached from [new Server()] and
    with an engine that applies every change set, [syncNow] does not throw:
    it returns, unless the loop is still retrying when the fuel is used up. *)
Theorem sync_never_throws (fuel : nat) c s :
  Client.strictMode c = false →
  Server.reachable s →
  (∀ d cs, ∃ d', A_applyChanges E d cs = Ok d') →
  ∀ e, Client.outcome (Client.syncNow others uuid fuel c s) ≠ Client.Threw e.
Proof.
  intros Hs Hr Htotal e. unfold Client.syncNow.
  destruct (Client.isOnline c); [|done].
  by apply syncLoop_never_throws.
Qed.

(** After a pull that completes, a client that was not ahead of the server
    expects the version the server had when the fetch ran. *)
Lemma pull_catches_up tick c s c1 :
  Server.reachable s →
  0 ≤ Client.serverVersion c ≤ Server.version s →
  Client.pull c (fetchedAt tick c s) = (c1, Ok ()) →
  Client.serverVersion c1 = Server.version (arrive tick s).
Proof.
  intros Hr Hv Hp. rewrite (pull_version _ _ _ _ Hp).
  apply fetch_last_version.
  - by apply reachable_Inv, reachable_runCalls.
  - destruct (steps_grow s (arrive tick s) (steps_runCalls s _)) as [_ Hle]. lia.
Qed.

(** A commit of the cycle is rejected as stale only when a call of another
    replica came between the fetch and the commit. *)
Lemma stale_needs_interference tick attempt c s c1 chs s3 (v : Z) :
  Server.reachable s →
  0 ≤ Client.serverVersion c ≤ Server.version s →
  Client.pull c (fetchedAt tick c s) = (c1, Ok ()) →
  Server.commit (arrive (S tick) (arrive tick s)) (requestOf c1 attempt chs)
    = (s3, Throw (STALE_VERSION v)) →
  others (S tick) ≠ [] ∧
  Server.reachable s3 ∧
  0 ≤ Client.serverVersion c1 ≤ Server.version s3.
Proof.
  intros Hr Hv Hp Hc.
  pose proof (pull_catches_up tick c s c1 Hr Hv Hp) as Hv1.
  destruct (steps_grow s (arrive tick s) (steps_runCalls s _)) as [_ Hle1].
  destruct (steps_grow _ _ (steps_runCalls (arrive tick s) (others (S tick))))
    as [_ Hle2].
  destruct (steps_grow _ _ (steps_commit _ _ _ _ Hc)) as [_ Hle3].
  split_and!.
  - intros Hq. pose proof (commit_throws (arrive (S tick) (arrive tick s))
      (requestOf c1 attempt chs) (STALE_VERSION v)) as Hth.
    rewrite Hc in Hth. destruct (Hth eq_refl) as [[_ Hne]|[? _]]; [|done].
    apply Hne. simpl. rewrite Hq. simpl. done.
  - eapply steps_reachable; [exact Hr|]. by eapply steps_attempt.
  - lia.
  - lia.
Qed.

(** X21: without contention a sync cycle does not retry.  When no other
    replica calls the server during the cycle, the server was reached from
    [new Server()], the client's acknowledged version is between 0 and the
    server's and the first key is unseen, the cycle ends in its first
    iteration: it makes at most one commit call, and that call expects the
    server's version and is accepted, appending one entry with the client's
    actor id, changes and touched paths at the next version, which the
    client takes as acknowledged. *)
Theorem quiet_sync_single_attempt (fuel : nat) c s :
  (∀ k, others k = []) →
  Server.reachable s →
  0 ≤ Client.serverVersion c ≤ Server.version s →
  uuid 0%nat ∉ Server.committedOpIds s →
  let r := Client.syncNow others uuid (S fuel) c s in
  Client.outcome r ≠ Client.OutOfFuel ∧
  (length (Client.commitCalls (Client.events r)) ≤ 1)%nat ∧
  ∀ req, Client.commitCalls (Client.events r) = [req] →
    Client.outcome r = Client.Returned ∧
    Server.expectedVersion req = Server.version s ∧
    Server.ops (Client.server r)
      = Server.ops s ++
        [Server.mkOp (Server.version s + 1) (uuid 0%nat) (Client.actorId c)
           (Server.changes req) (Server.touchedPaths req)] ∧
    Client.serverVersion (Client.client r) = Server.version s + 1 ∧
    Client.shadowDoc (Client.client r) = Client.localDoc (Client.client r) ∧
    Client.touchedPaths (Client.client r) = [].
Proof.
  intros Hq Hr Hv Hk r. subst r. unfold Client.syncNow.
  destruct (Client.isOnline c); [|simpl; split_and!; [done|lia|done]].
  pose proof (pull_catches_up 0 c s) as Hv1.
  pose proof (pull_frame c (fetchedAt 0 c s)) as Hf.
  cbn [Client.syncLoop]. rewrite !Hq in *. cbn [Server.runCalls fold_left] in *.
  unfold Server.fetchSince in *. cbn [snd] in *.
  destruct (Client.pull c _) as [c1 [[]|e]]; [|simpl; split_and!; [done|lia|done]].
  specialize (Hv1 c1 Hr Hv eq_refl). cbn [fst] in Hf. destruct Hf as (F1 & _).
  destruct (A_getChanges E _ _) as [[|ch chs]|e];
    [simpl; split_and!; [done|lia|done]| |simpl; split_and!; [done|lia|done]].
  rewrite commit_fresh; [|done..]. simpl.
  split_and!; [done|lia|]. intros req [= <-]. simpl. rewrite F1, Hv1.
  by split_and!.
Qed.

Lemma syncLoop_terminates (fuel tick attempt : nat) c s :
  Server.reachable s →
  0 ≤ Client.serverVersion c ≤ Server.version s →
  (∀ j, (fuel ≤ S j)%nat → others (tick + 2 * j + 1) = []) →
  fuel ≠ 0%nat →
  Client.outcome (Client.syncLoop others uuid fuel tick attempt c s)
    ≠ Client.OutOfFuel.
Proof.
  revert fuel tick attempt c s.
  apply (syncLoop_cases (λ fuel tick _ c s r,
    Server.reachable s →
    0 ≤ Client.serverVersion c ≤ Server.version s →
    (∀ j, (fuel ≤ S j)%nat → others (tick + 2 * j + 1) = []) →
    fuel ≠ 0%nat →
    Client.outcome r ≠ Client.OutOfFuel));
    try solve [intros; simpl; done].
  intros fuel tick attempt c s c1 ch chs s3 v Hp Hch Hc IH Hr Hv Hq _.
  destruct (stale_needs_interference _ _ _ _ _ _ _ _ Hr Hv Hp Hc)
    as (Hne & Hr3 & Hv3).
  cbn [Client.outcome Client.emit]. apply IH; [done..| |].
  - intros j Hj. replace (S (S tick) + 2 * j + 1)%nat
      with (tick + 2 * S j + 1)%nat by lia. apply Hq. lia.
  - intros ->. apply Hne.
    replace (S tick) with (tick + 2 * 0 + 1)%nat by lia. apply Hq. lia.
Qed.

(** X22: the retry loop ends once the others leave a gap.  For a server
    reached from [new Server()] and a client whose acknowledged version is
    between 0 and the server's: if from the [k]-th iteration on no call of
    another replica reaches the server between the cycle's fetch and its
    commit, [k + 1] iterations are enough, the cycle does not run out of
    fuel. *)
Theorem sync_terminates_after_contention (k : nat) c s :
  Server.reachable s →
  0 ≤ Client.serverVersion c ≤ Server.version s →
  (∀ j, (k ≤ j)%nat → others (2 * j + 1) = []) →
  Client.outcome (Client.syncNow others uuid (S k) c s) ≠ Client.OutOfFuel.
Proof.
  intros Hr Hv Hq. unfold Client.syncNow.
  destruct (Client.isOnline c); [|done].
  apply syncLoop_terminates; [done..| |done].
  intros j Hj. apply Hq. lia.
Qed.

(** X23: a key the server has seen is taken as committed.  In an iteration
    that has changes to push, when the key [randomUUID] returned is already
    among the server's seen keys (the server reached from [new Server()])
    the commit returns the version of the old entry and appends nothing;
    the cycle returns all the same: the client takes that old version
    as acknowledged, makes the local document the shadow document and
    clears the touched paths. *)
Theorem seen_key_taken_as_committed (fuel tick attempt : nat) c s c1 ch chs :
  Server.reachable s →
  Client.pull c (fetchedAt tick c s) = (c1, Ok ()) →
  A_getChanges E (Client.shadowDoc c1) (Client.localDoc c1) = Ok (ch :: chs) →
  uuid attempt ∈ Server.committedOpIds (arrive (S tick) (arrive tick s)) →
  let r := Client.syncLoop others uuid (S fuel) tick attempt c s in
  Client.outcome r = Client.Returned ∧
  Client.server r = arrive (S tick) (arrive tick s) ∧
  Client.shadowDoc (Client.client r) = Client.localDoc c1 ∧
  Client.localDoc (Client.client r) = Client.localDoc c1 ∧
  Client.touchedPaths (Client.client r) = [] ∧
  ∃ op, op ∈ Server.ops (arrive (S tick) (arrive tick s)) ∧
        Server.op_opId op = uuid attempt ∧
        Client.serverVersion (Client.client r) = Server.op_version op.
Proof.
  intros Hr Hp Hch Hseen r. subst r. cbn [Client.syncLoop].
  unfold Server.fetchSince in *. cbn [snd] in *. rewrite Hp, Hch.
  set (s2 := arrive (S tick) (arrive tick s)) in *.
  assert (HI : Server.Inv s2)
    by (by apply reachable_Inv; do 2 apply reachable_runCalls).
  destruct (Inv_find s2 _ HI Hseen) as (op & Hf & Hin & Hop).
  rewrite commit_seen by done. cbn [Server.opId]. rewrite Hf. simpl.
  split_and!; [done..|]. by exists op.
Qed.

End ClientSync.

(** * Properties of the Yjs demo *)

Section YjsFacts.

Context {Y : Yjs.YEngine}.

Implicit Types (w : Yjs.World Y) (c : Yjs.Client Y) (e : Yjs.Entry Y)
  (u : Yjs.Update Y).

Lemma onServerUpdate_frame u frm sq c :
  Yjs.name (Yjs.onServerUpdate u frm sq c) = Yjs.name c ∧
  Yjs.isOnline (Yjs.onServerUpdate u frm sq c) = Yjs.isOnline c ∧
  Yjs.queue (Yjs.onServerUpdate u frm sq c) = Yjs.queue c ∧
  Yjs.serverCursor c ≤ Yjs.serverCursor (Yjs.onServerUpdate u frm sq c) ∧
  (Yjs.serverCursor (Yjs.onServerUpdate u frm sq c) = Yjs.serverCursor c ∨
   Yjs.serverCursor (Yjs.onServerUpdate u frm sq c) = sq + 1).
Proof.
  unfold Yjs.onServerUpdate.
  destruct (Yjs.isOnline c) eqn:Hon; simpl;
    [|split_and!; first [done | lia | by left]].
  case_bool_decide; [|split_and!; first [done | lia | by left]].
  case_bool_decide; simpl; split_and!; first [done | lia | by right].
Qed.

Lemma pullEntry_frame c e :
  Yjs.name (Yjs.pullEntry c e) = Yjs.name c ∧
  Yjs.isOnline (Yjs.pullEntry c e) = Yjs.isOnline c ∧
  Yjs.queue (Yjs.pullEntry c e) = Yjs.queue c ∧
  Yjs.serverCursor (Yjs.pullEntry c e)
  = Z.max (Yjs.serverCursor c) (Yjs.seq e + 1).
Proof. unfold Yjs.pullEntry. by case_bool_decide. Qed.

Lemma pull_cursor_frame c missing :
  Yjs.name (Yjs.pull c missing) = Yjs.name c ∧
  Yjs.isOnline (Yjs.pull c missing) = Yjs.isOnline c ∧
  Yjs.queue (Yjs.pull c missing) = Yjs.queue c ∧
  Yjs.serverCursor c ≤ Yjs.serverCursor (Yjs.pull c missing) ∧
  Forall (λ e, Yjs.seq e + 1 ≤ Yjs.serverCursor (Yjs.pull c missing)) missing ∧
  (∀ n, Yjs.serverCursor c ≤ n → Forall (λ e, Yjs.seq e + 1 ≤ n) missing →
        Yjs.serverCursor (Yjs.pull c missing) ≤ n).
Proof.
  unfold Yjs.pull. revert c. induction missing as [|e l IH]; intros c.
  - simpl. split_and!; try done; lia.
  - cbn [fold_left fst snd].
    destruct (IH (Yjs.pullEntry c e)) as (H1 & H2 & H3 & H4 & H5 & H6).
    destruct (pullEntry_frame c e) as (G1 & G2 & G3 & G4).
    split_and!; try congruence.
    + lia.
    + constructor; [lia|done].
    + intros n Hn Hall. apply Forall_cons in Hall as [Ha Hl].
      apply H6; [lia|done].
Qed.


Lemma flush_frame c :
  Yjs.name (Yjs.flush c).1 = Yjs.name c ∧
  Yjs.isOnline (Yjs.flush c).1 = Yjs.isOnline c ∧
  Yjs.queue (Yjs.flush c).1 = [] ∧
  Yjs.serverCursor (Yjs.flush c).1 = Yjs.serverCursor c ∧
  Yjs.doc (Yjs.flush c).1 = Yjs.doc c ∧
  (Yjs.flush c).2
  = match Yjs.queue c with
    | [] => None
    | q => Some (Yjs.name c, Yjs.Y_mergeUpdates Y q)
    end.
Proof. unfold Yjs.flush. by destruct (Yjs.queue c) eqn:Hq. Qed.

Lemma transact_cursor (d : Yjs.YDoc Y) u c :
  Yjs.serverCursor (Yjs.transact d u c).1 = Yjs.serverCursor c.
Proof.
  unfold Yjs.transact, Yjs.onDocUpdate, Yjs.queueUpdate.
  cbn [Yjs.isOnline Yjs.set_queue Yjs.set_doc].
  destruct (Yjs.isOnline c); [|done].
  by rewrite (proj1 (proj2 (proj2 (proj2 (flush_frame _))))).
Qed.

Lemma submit_client w frm u (i : nat) c :
  Yjs.clients w !! i = Some c →
  Yjs.clients (Yjs.submit w frm u).1 !! i
  = Some (Yjs.onServerUpdate u frm (Z.of_nat (length (Yjs.log w))) c).
Proof.
  intros H. simpl. unfold Yjs.notify. by rewrite list_lookup_fmap, H.
Qed.

Lemma Inv_newServer : Yjs.Inv (@Yjs.newServer Y).
Proof. split; [by intros i e H|constructor]. Qed.

Lemma Inv_submit_yjs w frm u : Yjs.Inv w → Yjs.Inv (Yjs.submit w frm u).1.
Proof.
  intros [Hs Hc]. split; simpl.
  - intros i e H. destruct (decide (i < length (Yjs.log w))%nat) as [Hi|Hi].
    + rewrite lookup_app_l in H by done. by apply Hs.
    + rewrite lookup_app_r in H by lia.
      destruct (i - length (Yjs.log w))%nat eqn:Hd; [|done].
      injection H as <-. simpl. f_equal. lia.
  - unfold Yjs.notify. apply Forall_fmap. eapply Forall_impl; [exact Hc|].
    intros c Hb. simpl in *. rewrite length_app. cbn [length].
    destruct (onServerUpdate_frame u frm (Z.of_nat (length (Yjs.log w))) c)
      as (_ & _ & _ & Hle & [Heq|Heq]); rewrite Heq; lia.
Qed.

Lemma Inv_deliverAll w evs : Yjs.Inv w → Yjs.Inv (Yjs.deliverAll w evs).
Proof.
  unfold Yjs.deliverAll. revert w.
  induction evs as [|ev evs IH]; intros w Hw; [done|].
  simpl. by apply IH, Inv_submit_yjs.
Qed.

Lemma Inv_insert w (i : nat) c :
  Yjs.Inv w →
  0 ≤ Yjs.serverCursor c ≤ Z.of_nat (length (Yjs.log w)) →
  Yjs.Inv {| Yjs.log := Yjs.log w; Yjs.clients := <[i := c]> (Yjs.clients w) |}.
Proof.
  intros [Hs Hc] Hb. split; simpl; [done|]. by apply Forall_insert.
Qed.

Lemma Inv_onClient (i : nat) (f : Yjs.Client Y → Yjs.Client Y) w :
  (∀ c, Yjs.serverCursor (f c) = Yjs.serverCursor c) →
  Yjs.Inv w → Yjs.Inv (Yjs.onClient i f w).
Proof.
  intros Hf Hw. unfold Yjs.onClient.
  destruct (Yjs.clients w !! i) as [c|] eqn:Hi; [|done].
  apply Inv_insert; [done|]. rewrite Hf.
  destruct Hw as [_ Hc]. rewrite Forall_forall in Hc.
  apply Hc. by eapply list_elem_of_lookup_2.
Qed.

Lemma sent_app (l1 l2 : list (Yjs.Entry Y)) :
  Yjs.sent (l1 ++ l2) = Yjs.sent l1 ++ Yjs.sent l2.
Proof. unfold Yjs.sent. apply fmap_app. Qed.

Lemma deliverAll_log w evs :
  ∃ l, Yjs.log (Yjs.deliverAll w evs) = Yjs.log w ++ l ∧ Yjs.sent l = evs.
Proof.
  unfold Yjs.deliverAll. revert w.
  induction evs as [|[frm u] evs IH]; intros w.
  - exists []. by rewrite app_nil_r.
  - cbn [fold_left fst snd]. destruct (IH (Yjs.submit w frm u).1) as (l & Hl & Hs).
    exists (Yjs.mkEntry (Z.of_nat (length (Yjs.log w))) frm u :: l).
    split; [|by rewrite <- Hs].
    rewrite Hl. simpl. by rewrite <- app_assoc.
Qed.

Lemma deliverAll_client w evs (i : nat) c :
  Yjs.clients w !! i = Some c →
  ∃ c', Yjs.clients (Yjs.deliverAll w evs) !! i = Some c' ∧
        Yjs.name c' = Yjs.name c ∧
        Yjs.isOnline c' = Yjs.isOnline c ∧
        Yjs.queue c' = Yjs.queue c ∧
        Yjs.serverCursor c ≤ Yjs.serverCursor c'.
Proof.
  unfold Yjs.deliverAll. revert w c.
  induction evs as [|[frm u] evs IH]; intros w c Hi.
  - exists c. split_and!; [done..|lia].
  - cbn [fold_left fst snd].
    destruct (IH _ _ (submit_client w frm u i c Hi))
      as (c' & H1 & H2 & H3 & H4 & H5).
    destruct (onServerUpdate_frame u frm (Z.of_nat (length (Yjs.log w))) c)
      as (G1 & G2 & G3 & G4 & _).
    exists c'. split_and!; [done|congruence..|lia].
Qed.

(** The entries [fetchSince] returns are entries of the log. *)
Lemma slice_subseteq {A : Type} (k : Z) (l : list A) : Yjs.slice k l ⊆ l.
Proof. unfold Yjs.slice. destruct (decide (k < 0)); apply subseteq_drop. Qed.

Lemma Inv_seq_lt w e :
  Yjs.Inv w → e ∈ Yjs.log w →
  0 ≤ Yjs.seq e ∧ Yjs.seq e + 1 ≤ Z.of_nat (length (Yjs.log w)).
Proof.
  intros [Hs _] He. apply list_elem_of_lookup in He as [i Hi].
  rewrite (Hs i e Hi). apply lookup_lt_Some in Hi. lia.
Qed.

(** After the pull of [syncNow] the cursor is at the end of the log that
    was fetched. *)
Lemma pull_reaches_head w c c1 :
  Yjs.Inv w →
  0 ≤ Yjs.serverCursor c ≤ Yjs.serverCursor c1 →
  Yjs.serverCursor c1 ≤ Z.of_nat (length (Yjs.log w)) →
  Yjs.serverCursor (Yjs.pull c1 (Yjs.fetchSince w (Yjs.serverCursor c)))
  = Z.of_nat (length (Yjs.log w)).
Proof.
  intros Hw Hc Hc1.
  destruct (pull_cursor_frame c1 (Yjs.fetchSince w (Yjs.serverCursor c)))
    as (_ & _ & _ & Hge & Hall & Hle).
  apply Z.le_antisymm.
  - apply Hle; [done|]. apply Forall_forall. intros e He.
    apply (slice_subseteq _ _ e) in He. by apply Inv_seq_lt.
  - destruct (decide (Z.of_nat (length (Yjs.log w)) ≤ Yjs.serverCursor c));
      [lia|].
    destruct (Yjs.log w) as [|e0 l] eqn:Hlog using rev_ind; [simpl in *; lia|].
    clear IHl. rewrite Forall_forall in Hall.
    assert (He : e0 ∈ Yjs.fetchSince w (Yjs.serverCursor c)).
    { unfold Yjs.fetchSince, Yjs.slice. rewrite Hlog.
      rewrite decide_False by lia. rewrite length_app in *. simpl in *.
      rewrite drop_app_le by lia. apply elem_of_app. right. by left. }
    specialize (Hall e0 He).
    destruct Hw as [Hs _]. rewrite Hlog in Hs.
    specialize (Hs (length l) e0). rewrite lookup_app_r in Hs by lia.
    rewrite Nat.sub_diag in Hs. specialize (Hs eq_refl).
    rewrite length_app. simpl. lia.
Qed.

Lemma Inv_cursor_at w (i : nat) c :
  Yjs.Inv w → Yjs.clients w !! i = Some c →
  0 ≤ Yjs.serverCursor c ≤ Z.of_nat (length (Yjs.log w)).
Proof.
  intros [_ Hc] Hi. rewrite Forall_forall in Hc. apply Hc.
  by eapply list_elem_of_lookup_2.
Qed.


(** With the invariant, the entries numbered [k] and up are the log without
    its first [k] entries. *)
Lemma filter_from (l : list (Yjs.Entry Y)) (off : nat) (k : Z) :
  0 ≤ k →
  (∀ (i : nat) e, l !! i = Some e → Yjs.seq e = Z.of_nat (off + i)) →
  filter (λ e, k ≤ Yjs.seq e) l = drop (Z.to_nat k - off) l.
Proof.
  intros Hk. revert off. induction l as [|a l IH]; intros off Hl.
  - by rewrite drop_nil.
  - pose proof (Hl 0%nat a eq_refl) as Ha. rewrite Nat.add_0_r in Ha.
    assert (Hl' : ∀ (i : nat) e, l !! i = Some e →
              Yjs.seq e = Z.of_nat (S off + i)).
    { intros i e Hi. rewrite (Hl (S i) e Hi). f_equal. lia. }
    specialize (IH (S off) Hl').
    destruct (decide (k ≤ Yjs.seq a)) as [Hge|Hlt].
    + rewrite filter_cons_True by done. rewrite IH.
      replace (Z.to_nat k - off)%nat with 0%nat by lia.
      replace (Z.to_nat k - S off)%nat with 0%nat by lia. done.
    + rewrite filter_cons_False by done. rewrite IH.
      replace (Z.to_nat k - off)%nat with (S (Z.to_nat k - S off)) by lia. done.
Qed.

Lemma syncNow_facts (others : nat → list (string * Yjs.Update Y)) (i : nat) w c :
  Yjs.Inv w →
  Yjs.clients w !! i = Some c →
  Yjs.Inv (Yjs.syncNow others i w) ∧
  ∃ c', Yjs.clients (Yjs.syncNow others i w) !! i = Some c' ∧
        Yjs.name c' = Yjs.name c ∧
        Yjs.isOnline c' = Yjs.isOnline c ∧
        Yjs.queue c' = [] ∧
        Yjs.sent (Yjs.log (Yjs.syncNow others i w))
        = Yjs.sent (Yjs.log w) ++ others 0%nat ++
          match Yjs.queue c with
          | [] => []
          | q => others 1%nat ++ [(Yjs.name c, Yjs.Y_mergeUpdates Y q)]
          end ∧
        Z.of_nat (length (Yjs.log w) + length (others 0%nat))
        ≤ Yjs.serverCursor c'.
Proof.
  intros Hw Hi. unfold Yjs.syncNow. rewrite Hi.
  destruct (deliverAll_client w (others 0%nat) i c Hi)
    as (c1 & H1 & N1 & O1 & Q1 & C1).
  destruct (deliverAll_log w (others 0%nat)) as (l1 & L1 & S1).
  pose proof (Inv_deliverAll w (others 0%nat) Hw) as Hw1.
  rewrite H1. set (w1 := Yjs.deliverAll w (others 0%nat)) in *.
  pose proof (Inv_cursor_at w i c Hw Hi) as B0.
  pose proof (Inv_cursor_at w1 i c1 Hw1 H1) as B1.
  pose proof (pull_reaches_head w1 c c1 Hw1 ltac:(lia) ltac:(lia)) as Hhead.
  destruct (pull_cursor_frame c1 (Yjs.fetchSince w1 (Yjs.serverCursor c)))
    as (P1 & P2 & P3 & _).
  set (cp := Yjs.pull c1 (Yjs.fetchSince w1 (Yjs.serverCursor c))) in *.
  destruct (flush_frame cp) as (F1 & F2 & F3 & F4 & _ & F6).
  destruct (Yjs.flush cp) as [c2 call]. cbn [fst snd] in F1, F2, F3, F4, F6.
  assert (Hlen1 : length (Yjs.log w1)
                  = (length (Yjs.log w) + length (others 0%nat))%nat).
  { rewrite L1, length_app, <- S1. unfold Yjs.sent. by rewrite length_fmap. }
  set (w2 := {| Yjs.log := Yjs.log w1;
                Yjs.clients := <[i := c2]> (Yjs.clients w1) |}).
  assert (Hw2 : Yjs.Inv w2) by (apply Inv_insert; [done|]; lia).
  assert (H2 : Yjs.clients w2 !! i = Some c2).
  { apply list_lookup_insert_eq. by eapply lookup_lt_Some. }
  rewrite P3, Q1 in F6. subst call.
  destruct (Yjs.queue c) as [|u0 q] eqn:Hq.
  - split; [done|]. exists c2.
    split_and!; [done|congruence..|done| |lia].
    cbn [Yjs.log w2]. rewrite L1, sent_app, S1. by rewrite app_nil_r.
  - destruct (deliverAll_client w2 (others 1%nat) i c2 H2)
      as (c3 & H3 & N3 & O3 & Q3 & C3).
    destruct (deliverAll_log w2 (others 1%nat)) as (l3 & L3 & S3).
    pose proof (Inv_deliverAll w2 (others 1%nat) Hw2) as Hw3.
    set (w3 := Yjs.deliverAll w2 (others 1%nat)) in *.
    split; [by apply Inv_submit_yjs|].
    rewrite (submit_client w3 _ _ i c3 H3).
    destruct (onServerUpdate_frame (Yjs.Y_mergeUpdates Y (u0 :: q))
                (Yjs.name cp) (Z.of_nat (length (Yjs.log w3))) c3)
      as (G1 & G2 & G3 & G4 & _).
    eexists. split; [done|].
    split_and!; [congruence..| |lia].
    cbn [Yjs.submit fst Yjs.log]. rewrite L3. cbn [Yjs.log w2].
    rewrite L1, !sent_app, S1, S3, P1, N1. cbn. by rewrite <- !app_assoc.
Qed.

Lemma Inv_act_yjs w (a : Yjs.Action Y) : Yjs.Inv w → Yjs.Inv (Yjs.act w a).
Proof.
  intros Hw. destruct a as [nm d|frm u|i b|i d u|others i]; simpl.
  - destruct Hw as [Hs Hc]. split; simpl; [done|].
    apply Forall_app. split; [done|]. constructor; [simpl; lia|constructor].
  - by apply Inv_submit_yjs.
  - by apply Inv_onClient.
  - apply Inv_onClient; [|done]. intros c. apply transact_cursor.
  - destruct (Yjs.clients w !! i) as [c|] eqn:Hi.
    + by apply (syncNow_facts others i w c).
    + unfold Yjs.syncNow. by rewrite Hi.
Qed.

Lemma reachable_Inv_yjs w : Yjs.reachable w → Yjs.Inv w.
Proof. induction 1; [apply Inv_newServer|by apply Inv_act_yjs]. Qed.

(** X24: the relay numbers its log.  In every world that can come about the
    entry at position [i] of the log carries the number [i], so no two
    entries carry the same number; [submit] returns the number of the entry
    it appends, which is the length the log had, and leaves the entries that
    were there in place. *)
Theorem yjs_log_numbered w :
  Yjs.reachable w →
  (∀ (i : nat) e, Yjs.log w !! i = Some e → Yjs.seq e = Z.of_nat i) ∧
  NoDup (Yjs.seq <$> Yjs.log w) ∧
  ∀ frm u,
    (Yjs.submit w frm u).2 = Z.of_nat (length (Yjs.log w)) ∧
    Yjs.log (Yjs.submit w frm u).1 !! Z.to_nat (Yjs.submit w frm u).2
    = Some (Yjs.mkEntry (Yjs.submit w frm u).2 frm u) ∧
    Yjs.log w `prefix_of` Yjs.log (Yjs.submit w frm u).1.
Proof.
  intros Hr. destruct (reachable_Inv_yjs w Hr) as [Hs _]. split_and!.
  - done.
  - apply NoDup_alt. intros i j x Hi Hj.
    rewrite list_lookup_fmap in Hi, Hj.
    destruct (Yjs.log w !! i) as [a|] eqn:Ha; [|done].
    destruct (Yjs.log w !! j) as [b|] eqn:Hb; [|done].
    simpl in Hi, Hj. apply Hs in Ha, Hb. simplify_eq. lia.
  - intros frm u. simpl. split_and!; [done| |by apply prefix_app_r].
    rewrite Nat2Z.id. rewrite lookup_app_r by lia.
    by rewrite Nat.sub_diag.
Qed.

(** X25: in every world that can come about, [fetchSince(k)] for a [k] that
    is not negative returns the entries numbered [k] and up, in log order:
    one for each number from [k] to the end of the log, none when [k] is the
    length of the log or more. *)
Theorem yjs_fetchSince_tail w (k : Z) :
  Yjs.reachable w →
  0 ≤ k →
  Yjs.fetchSince w k = filter (λ e, k ≤ Yjs.seq e) (Yjs.log w) ∧
  Z.of_nat (length (Yjs.fetchSince w k))
  = Z.max 0 (Z.of_nat (length (Yjs.log w)) - k) ∧
  (Yjs.fetchSince w k = [] ↔ Z.of_nat (length (Yjs.log w)) ≤ k).
Proof.
  intros Hr Hk. destruct (reachable_Inv_yjs w Hr) as [Hs _].
  assert (Hd : Yjs.fetchSince w k = drop (Z.to_nat k) (Yjs.log w)).
  { unfold Yjs.fetchSince, Yjs.slice. by rewrite decide_False by lia. }
  split_and!.
  - rewrite Hd, (filter_from _ 0 k Hk); [by rewrite Nat.sub_0_r|done].
  - rewrite Hd, length_drop. lia.
  - rewrite Hd. split.
    + intros H. apply (f_equal length) in H. rewrite length_drop in H.
      simpl in H. lia.
    + intros H. apply drop_ge. lia.
Qed.

(** X26: in every world that can come about no client's cursor is negative
    or beyond the end of the server's log. *)
Theorem yjs_cursor_within_log w c :
  Yjs.reachable w →
  c ∈ Yjs.clients w →
  0 ≤ Yjs.serverCursor c ≤ Z.of_nat (length (Yjs.log w)).
Proof.
  intros Hr Hc. destruct (reachable_Inv_yjs w Hr) as [_ Hall].
  rewrite Forall_forall in Hall. by apply Hall.
Qed.

(** X27: a relayed update moves an online client's cursor to the end of the
    log, whatever it was.  In a world that can come about, when a [submit]
    lands every client that is online has afterwards the new length of the
    log as its cursor and, unless the update is its own, has applied that
    one update; so a [fetchSince] of its cursor returns nothing, also when
    entries before the new one had never reached the client.  A client that
    is offline is left as it was. *)
Theorem relayed_update_moves_cursor_to_end w frm u (i : nat) c :
  Yjs.reachable w →
  Yjs.clients w !! i = Some c →
  let w' := (Yjs.submit w frm u).1 in
  ∃ c', Yjs.clients w' !! i = Some c' ∧
    (Yjs.isOnline c = false → c' = c) ∧
    (Yjs.isOnline c = true →
       Yjs.serverCursor c' = Z.of_nat (length (Yjs.log w')) ∧
       Yjs.doc c'
       = (if bool_decide (frm ≠ Yjs.name c)
          then Yjs.Y_applyUpdate Y (Yjs.doc c) u else Yjs.doc c) ∧
       Yjs.fetchSince w' (Yjs.serverCursor c') = []).
Proof.
  intros Hr Hi w'. subst w'.
  pose proof (reachable_Inv_yjs w Hr) as Hw.
  pose proof (Inv_cursor_at w i c Hw Hi) as Hb.
  eexists. split; [by apply submit_client|].
  unfold Yjs.onServerUpdate. split.
  - by intros ->.
  - intros ->. cbn [negb]. rewrite bool_decide_eq_true_2 by lia.
    assert (Hlen : Z.of_nat (length (Yjs.log (Yjs.submit w frm u).1))
                   = Z.of_nat (length (Yjs.log w)) + 1).
    { simpl. rewrite length_app. simpl. lia. }
    split_and!.
    + by case_bool_decide.
    + by case_bool_decide.
    + replace (Yjs.serverCursor _)
        with (Z.of_nat (length (Yjs.log (Yjs.submit w frm u).1)))
        by (by case_bool_decide).
      unfold Yjs.fetchSince, Yjs.slice. rewrite decide_False by lia.
      apply drop_ge. lia.
Qed.

(** X28: what [syncNow] does, online or not.  In a world that can come
    about, after the [syncNow] of a client its queue is empty and its cursor
    is at least the length the log had when the fetch returned; the log has
    grown by the submits that landed meanwhile and, exactly when the queue
    was not empty, by one entry of the client's own that carries the merged
    queue; name and connectivity are what they were. *)
Theorem yjs_syncNow_effect (others : nat → list (string * Yjs.Update Y))
    (i : nat) w c :
  Yjs.reachable w →
  Yjs.clients w !! i = Some c →
  let w' := Yjs.syncNow others i w in
  ∃ c', Yjs.clients w' !! i = Some c' ∧
    Yjs.name c' = Yjs.name c ∧
    Yjs.isOnline c' = Yjs.isOnline c ∧
    Yjs.queue c' = [] ∧
    Yjs.sent (Yjs.log w')
    = Yjs.sent (Yjs.log w) ++ others 0%nat ++
      match Yjs.queue c with
      | [] => []
      | q => others 1%nat ++ [(Yjs.name c, Yjs.Y_mergeUpdates Y q)]
      end ∧
    Z.of_nat (length (Yjs.log w) + length (others 0%nat))
    ≤ Yjs.serverCursor c' ≤ Z.of_nat (length (Yjs.log w')).
Proof.
  intros Hr Hi w'. subst w'.
  destruct (syncNow_facts others i w c (reachable_Inv_yjs w Hr) Hi)
    as (Hw' & c' & H1 & H2 & H3 & H4 & H5 & H6).
  exists c'. split_and!; try done.
  by apply (Inv_cursor_at _ i c').
Qed.


Lemma deliverAll_head w evs (i : nat) c :
  Yjs.clients w !! i = Some c →
  Yjs.isOnline c = true →
  Yjs.serverCursor c = Z.of_nat (length (Yjs.log w)) →
  Forall (λ ev, ev.1 ≠ Yjs.name c) evs →
  ∃ c', Yjs.clients (Yjs.deliverAll w evs) !! i = Some c' ∧
        Yjs.name c' = Yjs.name c ∧
        Yjs.queue c' = Yjs.queue c ∧
        Yjs.doc c' = Yjs.applyAll (Yjs.doc c) evs.*2.
Proof.
  unfold Yjs.deliverAll. revert w c.
  induction evs as [|[frm u] evs IH]; intros w c Hi Hon Hc Hall.
  - by exists c.
  - apply Forall_cons in Hall as [Hne Hall]. cbn [fold_left fst snd] in *.
    pose proof (submit_client w frm u i c Hi) as Hi'.
    assert (Hs : Yjs.onServerUpdate u frm (Z.of_nat (length (Yjs.log w))) c
                 = Yjs.set_serverCursor (Z.of_nat (length (Yjs.log w)) + 1)
                     (Yjs.set_doc (Yjs.Y_applyUpdate Y (Yjs.doc c) u) c)).
    { unfold Yjs.onServerUpdate. rewrite Hon. cbn [negb].
      rewrite bool_decide_eq_true_2 by lia.
      by rewrite bool_decide_eq_true_2 by done. }
    rewrite Hs in Hi'.
    destruct (IH _ _ Hi') as (c' & H1 & H2 & H3 & H4); [done| |done|].
    { simpl. rewrite length_app. simpl. lia. }
    exists c'. split_and!; [done..|]. by rewrite H4.
Qed.

Lemma pull_doc c missing :
  Forall (λ e, Yjs.from e ≠ Yjs.name c) missing →
  Yjs.doc (Yjs.pull c missing)
  = Yjs.applyAll (Yjs.doc c) (Yjs.update <$> missing).
Proof.
  unfold Yjs.pull, Yjs.applyAll. revert c.
  induction missing as [|e l IH]; intros c Hall; [done|].
  apply Forall_cons in Hall as [Hne Hall]. cbn [fold_left fmap list_fmap].
  rewrite IH.
  - unfold Yjs.pullEntry. by rewrite bool_decide_eq_true_2 by done.
  - by rewrite (proj1 (pullEntry_frame c e)).
Qed.

(** X29: an update that lands while [fetchSince] waits is applied twice.
    [syncNow] reads the cursor when it calls [fetchSince] and the log when
    the delay is over, so for a client that is online and whose cursor is at
    the end of the log, the updates of others that land during the delay are
    applied by the subscription handler and then, being in the fetched tail,
    by the loop of [syncNow] once more. *)
Theorem landed_during_fetch_applied_twice
    (others : nat → list (string * Yjs.Update Y)) (i : nat) w c :
  Yjs.clients w !! i = Some c →
  Yjs.isOnline c = true →
  Yjs.serverCursor c = Z.of_nat (length (Yjs.log w)) →
  Yjs.queue c = [] →
  Forall (λ ev, ev.1 ≠ Yjs.name c) (others 0%nat) →
  ∃ c', Yjs.clients (Yjs.syncNow others i w) !! i = Some c' ∧
        Yjs.doc c'
        = Yjs.applyAll (Yjs.applyAll (Yjs.doc c) (others 0%nat).*2)
            (others 0%nat).*2.
Proof.
  intros Hi Hon Hc Hq Hall. unfold Yjs.syncNow. rewrite Hi.
  destruct (deliverAll_head w (others 0%nat) i c Hi Hon Hc Hall)
    as (c1 & H1 & N1 & Q1 & D1).
  destruct (deliverAll_log w (others 0%nat)) as (l1 & L1 & S1).
  rewrite H1.
  assert (Hf : Yjs.fetchSince (Yjs.deliverAll w (others 0%nat))
                 (Yjs.serverCursor c) = l1).
  { unfold Yjs.fetchSince, Yjs.slice. rewrite decide_False by lia.
    rewrite Hc, Nat2Z.id, L1. apply drop_app_length. }
  rewrite Hf.
  destruct (pull_cursor_frame c1 l1) as (P1 & _ & P3 & _).
  assert (Hd : Yjs.doc (Yjs.pull c1 l1)
               = Yjs.applyAll (Yjs.doc c1) (others 0%nat).*2).
  { rewrite pull_doc.
    - f_equal. rewrite <- S1. unfold Yjs.sent.
      by rewrite <- list_fmap_compose.
    - rewrite N1. rewrite <- S1 in Hall. unfold Yjs.sent in Hall.
      rewrite Forall_fmap in Hall. exact Hall. }
  unfold Yjs.flush. rewrite P3, Q1, Hq.
  eexists. split.
  - apply list_lookup_insert_eq. by eapply lookup_lt_Some.
  - by rewrite Hd, D1.
Qed.

End YjsFacts.

(** * The further properties on the demo's replicas *)

Section MoreInstances.

Import Example Scenario.

Lemma server1_reachable : Server.reachable server1.
Proof.
  apply (Server.reachable_call Server.init (Server.CallCommit req1)).
  constructor.
Qed.

Lemma server2_reachable : Server.reachable server2.
Proof.
  apply (Server.reachable_call server1 (Server.CallCommit reqBob)).
  apply server1_reachable.
Qed.

Lemma serverA_reachable : Server.reachable serverA.
Proof. apply Server.reachable_call. constructor. Qed.

Lemma log_append_only_witness :
  Server.ops server1 `prefix_of`
    Server.ops (Server.call (Server.call server1 (Server.CallCommit req1'))
                  (Server.CallCommit reqBob)) ∧
  Server.ops (Server.call (Server.call server1 (Server.CallCommit req1'))
                (Server.CallCommit reqBob)) !! 0%nat
  = Some (Server.mkOp 1 "k1" "Alice" [7%nat] ["nodes"]).
Proof.
  destruct (log_append_only server1
              (Server.call (Server.call server1 (Server.CallCommit req1'))
                 (Server.CallCommit reqBob))) as (H1 & _ & _ & H2).
  - apply Server.steps_call, Server.steps_call, Server.steps_refl.
  - split; [exact H1|]. apply H2. reflexivity.
Defined.

Lemma one_entry_per_key_witness :
  NoDup (Server.op_opId <$> Server.ops server2) ∧
  size (Server.committedOpIds server2) = 2%nat.
Proof.
  destruct (one_entry_per_key server2) as (H1 & H2 & _).
  - apply server2_reachable.
  - split; [exact H1|]. rewrite H2. reflexivity.
Defined.

Lemma first_commit_wins_witness :
  Server.commit server2 reqCarol = (server2, Throw (STALE_VERSION 2)).
Proof.
  destruct (first_commit_wins server1 reqBob reqCarol) as (_ & _ & H).
  - vm_compute. intros H. apply (bool_decide_pack _) in H. vm_compute in H. done.
  - vm_compute. intros H. apply (bool_decide_pack _) in H. vm_compute in H. done.
  - vm_compute. discriminate.
  - reflexivity.
  - reflexivity.
  - exact H.
Defined.

Lemma commit_then_fetch_witness :
  (Server.fetchSince server2 1).2 = [Server.mkOp 2 "k2" "Bob" [8%nat] ["order"]].
Proof.
  destruct (commit_then_fetch server1 reqBob) as (_ & _ & _ & H).
  - apply server1_reachable.
  - vm_compute. intros H. apply (bool_decide_pack _) in H. vm_compute in H. done.
  - reflexivity.
  - exact H.
Defined.

Lemma stale_then_retry_witness :
  (Server.commit (Server.commit server1 req2).1 reqBob).2 = Ok 2.
Proof.
  destruct (stale_then_retry server1 req2 reqBob 1) as (H & _).
  - vm_compute. reflexivity.
  - reflexivity.
  - reflexivity.
  - exact H.
Defined.

Lemma fetch_reaches_version_witness :
  Z.of_nat (length (Server.fetchSince server2 0).2) = 2 ∧
  (Server.fetchSince server2 2).2 = [].
Proof.
  destruct (fetch_reaches_version server2 0) as (_ & _ & H1).
  - apply server2_reachable.
  - lia.
  - destruct (fetch_reaches_version server2 2) as (H2 & _).
    + apply server2_reachable.
    + lia.
    + split; [exact H1|]. apply H2. vm_compute. discriminate.
Defined.

Lemma printLogTail_lines_witness :
  Printing.sliceLast 5 (Server.ops server2)
  = (Server.fetchSince server2 (Server.version server2 - 5)).2.
Proof.
  destruct (printLogTail_lines server2) as (_ & _ & H).
  apply H. apply server2_reachable.
Defined.

Lemma path_string_round_trip_witness :
  split_dot (join_dot ["nodes"; "nodeA"; "title"]) = ["nodes"; "nodeA"; "title"].
Proof.
  destruct path_string_round_trip as (_ & _ & H).
  apply H.
  - discriminate.
  - repeat constructor.
Defined.

Lemma getByPath_steps_witness :
  getByPath doc1 ("nodes.nodeZ" +:+ "." +:+ "title") = JUndef.
Proof.
  destruct (getByPath_steps doc1 "nodes.nodeZ" "title") as (_ & _ & H).
  apply H. vm_compute. reflexivity.
Defined.


Lemma setByPath_idempotent_witness :
  ∃ d1, setByPath doc1 "nodes.nodeA.title" (JStr "First") = Ok d1 ∧
        setByPath d1 "nodes.nodeA.title" (JStr "First") = Ok d1.
Proof.
  destruct (setByPath doc1 "nodes.nodeA.title" (JStr "First")) as [d1|e] eqn:H.
  - exists d1. split; [reflexivity|].
    apply (setByPath_idempotent doc1 "nodes.nodeA.title" (JStr "First") d1 H).
  - vm_compute in H. discriminate H.
Defined.

Lemma change_bookkeeping_witness :
  (Client.change alice2 "Alice title First"
     (assignCb "nodes.nodeA.title" "First")).2 = Ok () ∧
  Client.undoStack alice3
  = Client.undoStack alice2 ++ [A_save Toy.engine (Client.localDoc alice2)] ∧
  ∀ x, x ∈ Client.touchedPaths alice3 ↔
       x ∈ Client.touchedPaths alice2 ∨
       ∃ p, p ∈ [["nodes"; "nodeA"; "title"]; ["nodes"; "nodeA"; "title"; "0"]] ∧
            x = join_dot p.
Proof.
  destruct (assignCb "nodes.nodeA.title" "First"
              (A_view Toy.engine (Client.localDoc alice2))) as [draft|e] eqn:H.
  - destruct (change_bookkeeping (E:=Toy.engine) alice2 "Alice title First"
                (assignCb "nodes.nodeA.title" "First") draft H)
      as (H1 & _ & H2 & _ & H3 & _).
    vm_compute in H. injection H as <-.
    split; [exact H1|]. split; [exact H2|exact H3].
  - vm_compute in H. discriminate H.
Defined.

Lemma change_callback_throws_witness :
  (Client.change alice2 "Alice styles nodeZ" badCb).2 = Throw TypeError ∧
  Client.undo (Client.change alice2 "Alice styles nodeZ" badCb).1 = alice2.
Proof.
  destruct (change_callback_throws (E:=Toy.engine) alice2 "Alice styles nodeZ"
              badCb TypeError) as (H1 & _ & _ & _ & H2).
  - vm_compute. reflexivity.
  - split; [exact H1|]. apply H2. reflexivity.
Defined.

Lemma changes_then_undos_witness :
  Client.localDoc
    (ClientRuns.undoTimes 2
       (ClientRuns.runChanges alice2
          [("Alice title First", assignCb "nodes.nodeA.title" "First");
           ("Alice styles nodeZ", badCb)]))
  = Client.localDoc alice2.
Proof.
  destruct (changes_then_undos (E:=Toy.engine) alice2
              [("Alice title First", assignCb "nodes.nodeA.title" "First");
               ("Alice styles nodeZ", badCb)]) as (H & _).
  - intros d. reflexivity.
  - exact H.
Defined.

Lemma sync_only_calls_server_witness :
  Server.reachable (Client.server r1).
Proof.
  destruct (sync_only_calls_server (E:=Toy.engine) quiet (uuid "a1") 4
              alice1 Server.init) as (_ & _ & H).
  apply H. constructor.
Defined.

Lemma sync_returns_after_commit_witness :
  Client.shadowDoc (Client.client r1) = Client.localDoc (Client.client r1) ∧
  Client.touchedPaths (Client.client r1) = [].
Proof.
  destruct (sync_returns_after_commit (E:=Toy.engine) quiet (uuid "a1") 4
              alice1 Server.init aliceInitReq) as (H1 & H2 & _).
  - vm_compute. reflexivity.
  - vm_compute. reflexivity.
  - split; [exact H1|exact H2].
Defined.

Lemma allow_overwrite_keeps_touched_witness :
  Forall (λ req, Server.touchedPaths req = Client.touchedPaths bobEdits)
    (Client.commitCalls
       (Client.events
          (Client.syncNow (E:=Toy.engine) racing (uuid "b2") 4
             (Client.set_strictMode false bobEdits) serverA))).
Proof.
  destruct (allow_overwrite_keeps_touched (E:=Toy.engine) racing (uuid "b2") 4
              (Client.set_strictMode false bobEdits) serverA) as (H & _).
  - reflexivity.
  - exact H.
Defined.

Lemma sync_never_throws_witness :
  Client.outcome
    (Client.syncNow (E:=Toy.engine) racing (uuid "b2") 4
       (Client.set_strictMode false bobEdits) serverA)
  ≠ Client.Threw (STALE_VERSION 2).
Proof.
  apply (sync_never_throws (E:=Toy.engine) racing (uuid "b2") 4
           (Client.set_strictMode false bobEdits) serverA).
  - reflexivity.
  - apply serverA_reachable.
  - intros d cs. eexists. reflexivity.
Defined.

Lemma quiet_sync_single_attempt_witness :
  Client.outcome r1 = Client.Returned ∧
  Server.ops (Client.server r1)
  = [Server.mkOp 1 "a1-0" "Alice" (Server.changes aliceInitReq)
       (Server.touchedPaths aliceInitReq)] ∧
  Client.serverVersion alice2 = 1.
Proof.
  destruct (quiet_sync_single_attempt (E:=Toy.engine) quiet (uuid "a1") 3
              alice1 Server.init) as (_ & _ & H).
  - intros k. reflexivity.
  - constructor.
  - simpl. lia.
  - vm_compute. intros H. apply (bool_decide_pack _) in H. vm_compute in H. done.
  - destruct (H aliceInitReq) as (H1 & _ & H2 & H3 & _).
    + vm_compute. reflexivity.
    + split; [exact H1|]. split; [exact H2|exact H3].
Defined.

Lemma sync_terminates_after_contention_witness :
  Client.outcome
    (Client.syncNow (E:=Toy.engine) racing (uuid "b2") 2 bobEdits serverA)
  ≠ Client.OutOfFuel.
Proof.
  apply (sync_terminates_after_contention (E:=Toy.engine) racing (uuid "b2") 1
           bobEdits serverA).
  - apply serverA_reachable.
  - vm_compute. split; discriminate.
  - intros j Hj. destruct j as [|j]; [lia|].
    replace (2 * S j + 1)%nat with (S (S (S (2 * j)))) by lia. reflexivity.
Defined.

Lemma seen_key_taken_as_committed_witness :
  Client.outcome
    (Client.syncLoop (E:=Toy.engine) quiet sameKey 1 0 0 alice3 serverA)
  = Client.Returned ∧
  Client.server
    (Client.syncLoop (E:=Toy.engine) quiet sameKey 1 0 0 alice3 serverA)
  = serverA ∧
  Client.touchedPaths
    (Client.client
       (Client.syncLoop (E:=Toy.engine) quiet sameKey 1 0 0 alice3 serverA))
  = [].
Proof.
  destruct (seen_key_taken_as_committed (E:=Toy.engine) quiet sameKey 0 0 0
              alice3 serverA alice3 titleChange [])
    as (H1 & H2 & _ & _ & H3 & _).
  - apply serverA_reachable.
  - vm_compute. reflexivity.
  - vm_compute. reflexivity.
  - apply (bool_decide_unpack _). vm_compute. exact I.
  - split; [exact H1|]. split; [exact H2|exact H3].
Defined.

End MoreInstances.

(** * The properties of the Yjs demo on two replicas *)

Section YjsInstances.

Import YjsExample.

Lemma run_reachable w acts : Yjs.reachable w → Yjs.reachable (run w acts).
Proof.
  unfold run. revert w. induction acts as [|a acts IH]; intros w Hw; [done|].
  simpl. apply IH. by constructor.
Qed.

Lemma w1_reachable : Yjs.reachable w1.
Proof. apply run_reachable. constructor. Qed.

Lemma w3_reachable : Yjs.reachable w3.
Proof. apply run_reachable, w1_reachable. Qed.

Lemma w4_reachable : Yjs.reachable w4.
Proof. apply run_reachable, w3_reachable. Qed.

(** Bob was offline when "title2" landed and online again when "title3"
    did: he has "title3", his cursor is at the end of the log, and his
    [syncNow] does not bring him "title2". *)
Example missed_update_scenario :
  Yjs.clients w4 !! 1%nat = Some bob4 ∧
  Yjs.fetchSince w4 (Yjs.serverCursor bob4) = [] ∧
  Yjs.clients (Yjs.syncNow (Y:=engine) quiet 1 w4) !! 1%nat
  = Some (Yjs.mkClient (Y:=engine) "Bob" true [] 4
            ["nodeA"; "nodeB"; "red"; "title3"]).
Proof. vm_compute. repeat split. Qed.

Lemma yjs_log_numbered_witness :
  NoDup (Yjs.seq <$> Yjs.log w4) ∧ (Yjs.submit w4 "Bob" ["red"]).2 = 3.
Proof.
  destruct (yjs_log_numbered (Y:=engine) w4) as (_ & H1 & H2).
  - apply w4_reachable.
  - split; [exact H1|]. destruct (H2 "Bob" ["red"]) as (H & _).
    rewrite H. reflexivity.
Defined.

Lemma yjs_fetchSince_tail_witness :
  Yjs.fetchSince w4 1 = filter (λ e, 1 ≤ Yjs.seq e) (Yjs.log w4) ∧
  Yjs.fetchSince w4 3 = [].
Proof.
  destruct (yjs_fetchSince_tail (Y:=engine) w4 1) as (H1 & _).
  - apply w4_reachable.
  - lia.
  - destruct (yjs_fetchSince_tail (Y:=engine) w4 3) as (_ & _ & H2).
    + apply w4_reachable.
    + lia.
    + split; [exact H1|]. apply H2. vm_compute. discriminate.
Defined.

Lemma yjs_cursor_within_log_witness :
  0 ≤ Yjs.serverCursor bob4 ≤ Z.of_nat (length (Yjs.log w4)).
Proof.
  apply (yjs_cursor_within_log (Y:=engine) w4 bob4).
  - apply w4_reachable.
  - apply (list_elem_of_lookup_2 _ 1%nat). reflexivity.
Defined.

Lemma relayed_update_moves_cursor_to_end_witness :
  ∃ c', Yjs.clients (Yjs.submit w3 "Alice" ["title3"]).1 !! 1%nat = Some c' ∧
        Yjs.serverCursor c' = 3 ∧
        Yjs.fetchSince (Yjs.submit w3 "Alice" ["title3"]).1
          (Yjs.serverCursor c') = [].
Proof.
  destruct (relayed_update_moves_cursor_to_end (Y:=engine) w3 "Alice"
              ["title3"] 1 bob3) as (c' & H1 & _ & H2).
  - apply w3_reachable.
  - reflexivity.
  - destruct (H2 eq_refl) as (Hc & _ & Hf).
    exists c'. split; [exact H1|]. split; [|exact Hf].
    rewrite Hc. reflexivity.
Defined.

Lemma yjs_syncNow_effect_witness :
  ∃ c', Yjs.clients (Yjs.syncNow (Y:=engine) quiet 1 w4) !! 1%nat = Some c' ∧
        Yjs.queue c' = [] ∧
        Yjs.sent (Yjs.log (Yjs.syncNow (Y:=engine) quiet 1 w4))
        = Yjs.sent (Yjs.log w4) ++ [("Bob", ["red"])].
Proof.
  destruct (yjs_syncNow_effect (Y:=engine) quiet 1 w4 bob4)
    as (c' & H1 & _ & _ & H2 & H3 & _).
  - apply w4_reachable.
  - reflexivity.
  - exists c'. split; [exact H1|]. split; [exact H2|].
    rewrite H3. reflexivity.
Defined.

Lemma landed_during_fetch_applied_twice_witness :
  ∃ c', Yjs.clients (Yjs.syncNow (Y:=engine) landing 1 w1) !! 1%nat = Some c' ∧
        Yjs.doc c'
        = Yjs.applyAll (Y:=engine)
            (Yjs.applyAll (Y:=engine) ["nodeA"; "nodeB"] [["title2"]])
            [["title2"]].
Proof.
  destruct (landed_during_fetch_applied_twice (Y:=engine) landing 1 w1 bob1)
    as (c' & H1 & H2).
  - reflexivity.
  - reflexivity.
  - reflexivity.
  - reflexivity.
  - repeat constructor. discriminate.
  - exists c'. split; [exact H1|exact H2].
Defined.

End YjsInstances.
